(** * Meeting Notes Translator: the request handler and the output formatter

    A shallow embedding of [src/App.jsx]: the component state, the
    [handleTranslate] event handler with its validation, prompt construction
    and error classification, and [formatMarkdown] with the two regular
    expression replacements it chains.

    JavaScript strings are sequences of UTF-16 code units; they are modelled
    as lists of code units, so that [String.prototype.includes], the regular
    expression atom [.] and the line terminators are what they are in the
    language. *)

From Stdlib Require Import String Ascii.
From Stdlib Require Import List NArith Bool Arith Lia.
Import ListNotations.

(* ================================================================== *)
(** ** JavaScript strings *)

Definition jsstring := list N.

(** An ASCII literal of the source, as code units. *)
Definition lit (s : string) : jsstring := map N_of_ascii (list_ascii_of_string s).

(** [!s] for a string: the empty string is the only falsy one. *)
Definition str_falsy (s : jsstring) : bool :=
  match s with [] => true | _ :: _ => false end.

(** [!v] for a value that is a string or [undefined]. *)
Definition opt_falsy (v : option jsstring) : bool :=
  match v with None => true | Some s => str_falsy s end.

Fixpoint startsWith (s prefix : jsstring) {struct prefix} : bool :=
  match prefix, s with
  | [], _ => true
  | p :: prefix', c :: s' => (c =? p)%N && startsWith s' prefix'
  | _ :: _, [] => false
  end.

(** [s.includes(needle)]: a case-sensitive substring test on code units. *)
Fixpoint includes (s needle : jsstring) : bool :=
  startsWith s needle ||
  match s with
  | [] => false
  | _ :: s' => includes s' needle
  end.

(** [v?.includes(needle)], read in a condition: [undefined] is falsy. *)
Definition opt_includes (v : option jsstring) (needle : jsstring) : bool :=
  match v with None => false | Some s => includes s needle end.

(** [`${v}`] for a string or [undefined]. *)
Definition to_display (v : option jsstring) : jsstring :=
  match v with None => lit "undefined" | Some s => s end.

Definition LF : N := 10.
Definition CR : N := 13.
Definition LS : N := 8232.   (* U+2028 *)
Definition PS : N := 8233.   (* U+2029 *)
Definition star : N := 42.   (* '*' *)
Definition space : N := 32.
Definition bullet : N := 8226.  (* U+2022 *)

(** The LineTerminator code points: what [.] refuses and what delimits
    lines for [^] and [$] under the [m] flag. *)
Definition isLineTerminator (c : N) : bool :=
  ((c =? LF) || (c =? CR) || (c =? LS) || (c =? PS))%N.

(* ================================================================== *)
(** ** Regular expressions: a backtracking matcher

    The fragment of the pattern language the source uses, with the
    semantics of the language's backtracking matcher written in
    continuation-passing style: a matcher takes the continuation that
    matches the rest of the pattern, and tries its alternatives in priority
    order until the continuation accepts. *)

Inductive atom : Type :=
| Lit (c : N)     (* a literal character, as the escaped star of the source *)
| Dot.            (* [.] without the s flag *)

Inductive regex : Type :=
| Atom (a : atom)
| BolM                      (* [^] under the m flag *)
| EolM                      (* [$] under the m flag *)
| Seq (r1 r2 : regex)
| Group (r : regex)         (* the capturing group; the patterns have one *)
| StarLazy (a : atom)       (* [a*?] *)
| PlusGreedy (a : atom).    (* [a+] *)

Definition atom_matches (a : atom) (c : N) : bool :=
  match a with
  | Lit d => (c =? d)%N
  | Dot => negb (isLineTerminator c)
  end.

(** The matcher state: the character before the current position (none at
    the start of the input), the input from the current position on, and
    the capture of group 1 (undefined until the group has matched). *)
Record mstate : Type := MState {
  before : option N;
  rest : jsstring;
  group1 : option jsstring
}.

Definition cont := mstate -> option mstate.

(** [a*?]: first try to go on with no further repetition, then with one
    more. *)
Fixpoint lazy_loop (a : atom) (k : cont) (g : option jsstring)
    (b : option N) (s : jsstring) {struct s} : option mstate :=
  match k (MState b s g) with
  | Some m => Some m
  | None =>
      match s with
      | c :: s' => if atom_matches a c then lazy_loop a k g (Some c) s' else None
      | [] => None
      end
  end.

(** [a*] greedy: first try one more repetition, then to go on without. *)
Fixpoint greedy_loop (a : atom) (k : cont) (g : option jsstring)
    (b : option N) (s : jsstring) {struct s} : option mstate :=
  match s with
  | c :: s' =>
      if atom_matches a c then
        match greedy_loop a k g (Some c) s' with
        | Some m => Some m
        | None => k (MState b s g)
        end
      else k (MState b s g)
  | [] => k (MState b s g)
  end.

(** Leaving the group entered at input [s0]: what was consumed since is
    the capture. *)
Definition capture_then (s0 : jsstring) (k : cont) : cont :=
  fun st' =>
    k (MState (before st') (rest st')
         (Some (firstn (length s0 - length (rest st')) s0))).

Fixpoint run (r : regex) (k : cont) (st : mstate) {struct r} : option mstate :=
  match r with
  | Atom a =>
      match rest st with
      | c :: s' =>
          if atom_matches a c then k (MState (Some c) s' (group1 st)) else None
      | [] => None
      end
  | BolM =>
      match before st with
      | None => k st
      | Some c => if isLineTerminator c then k st else None
      end
  | EolM =>
      match rest st with
      | [] => k st
      | c :: _ => if isLineTerminator c then k st else None
      end
  | Seq r1 r2 => run r1 (run r2 k) st
  | Group r1 => run r1 (capture_then (rest st) k) st
  | StarLazy a => lazy_loop a k (group1 st) (before st) (rest st)
  | PlusGreedy a =>
      match rest st with
      | c :: s' =>
          if atom_matches a c then greedy_loop a k (group1 st) (Some c) s'
          else None
      | [] => None
      end
  end.

(** One match attempt at the current position; [b] is the character before
    it. The result holds the input after the match and the capture. *)
Definition exec (r : regex) (b : option N) (s : jsstring) : option mstate :=
  run r (fun st => Some st) (MState b s None).

(** A replacement string of the source, cut at its [$1] reference. *)
Inductive piece : Type :=
| Text (t : jsstring)
| Ref1.

Definition expand_piece (g : option jsstring) (p : piece) : jsstring :=
  match p with
  | Text t => t
  | Ref1 => match g with Some c => c | None => [] end
  end.

Definition expand (tpl : list piece) (g : option jsstring) : jsstring :=
  flat_map (expand_piece g) tpl.

(** [s.replace(/r/g, tpl)]: the matches are looked for from left to right,
    each search starting where the last match ended (one code unit further
    after an empty match); what lies between the matches is copied.
    [skip] counts the code units of the last match still to be passed. *)
Fixpoint replace_loop (r : regex) (tpl : list piece) (skip : nat)
    (b : option N) (s : jsstring) {struct s} : jsstring :=
  match s with
  | [] =>
      match skip with
      | O =>
          match exec r b [] with
          | Some m => expand tpl (group1 m)
          | None => []
          end
      | S _ => []
      end
  | c :: s' =>
      match skip with
      | S n => replace_loop r tpl n (Some c) s'
      | O =>
          match exec r b s with
          | None => c :: replace_loop r tpl 0 (Some c) s'
          | Some m =>
              expand tpl (group1 m) ++
              match length s - length (rest m) with
              | O => c :: replace_loop r tpl 0 (Some c) s'
              | S n => replace_loop r tpl n (Some c) s'
              end
          end
      end
  end.

Definition replace_all (r : regex) (tpl : list piece) (s : jsstring) : jsstring :=
  replace_loop r tpl 0 None s.

(* ================================================================== *)
(** ** formatMarkdown *)

(** [/\*\*(.*?)\*\*/g] *)
Definition bold_re : regex :=
  Seq (Atom (Lit star)) (Seq (Atom (Lit star))
    (Seq (Group (StarLazy Dot))
      (Seq (Atom (Lit star)) (Atom (Lit star))))).

(** ['<strong>$1</strong>'] *)
Definition bold_tpl : list piece :=
  [Text (lit "<strong>"); Ref1; Text (lit "</strong>")].

(** [/^\* (.+)$/gm] *)
Definition bullet_re : regex :=
  Seq BolM (Seq (Atom (Lit star)) (Seq (Atom (Lit space))
    (Seq (Group (PlusGreedy Dot)) EolM))).

(** The bullet character, a space and [$1]. *)
Definition bullet_tpl : list piece :=
  [Text [bullet; space]; Ref1].

Definition formatMarkdown (text : jsstring) : jsstring :=
  replace_all bullet_re bullet_tpl (replace_all bold_re bold_tpl text).

(* ================================================================== *)
(** ** The two matches in closed form

    What a match of each pattern at a given position comes to, written as
    plain list functions; they are proved equal to the matcher
    ([exec_bold_re], [exec_bullet_re]) and serve to reason about it. *)

(** After an opening pair of stars: the text up to the nearest closing pair
    on the same line, and what follows that pair. *)
Fixpoint close_bold (s : jsstring) : option (jsstring * jsstring) :=
  match s with
  | [] => None
  | c :: s' =>
      if startsWith s [star; star] then Some ([], skipn 2 s)
      else if isLineTerminator c then None
      else
        match close_bold s' with
        | Some (t, r) => Some (c :: t, r)
        | None => None
        end
  end.

Definition bold_match (s : jsstring) : option (jsstring * jsstring) :=
  match s with
  | c1 :: c2 :: s' =>
      if (c1 =? star)%N && (c2 =? star)%N then close_bold s' else None
  | _ => None
  end.

(** The bold pattern has no anchor: what stands before the position plays
    no part. *)
Definition bold_mf (_ : option N) (s : jsstring) : option (jsstring * jsstring) :=
  bold_match s.

(** The input up to the next line terminator, and from it on. *)
Fixpoint line_span (s : jsstring) : jsstring * jsstring :=
  match s with
  | [] => ([], [])
  | c :: s' =>
      if isLineTerminator c then ([], s)
      else let (l, r) := line_span s' in (c :: l, r)
  end.

Definition at_line_start (b : option N) : bool :=
  match b with
  | None => true
  | Some c => isLineTerminator c
  end.

Definition bullet_match (b : option N) (s : jsstring) : option (jsstring * jsstring) :=
  match s with
  | c1 :: c2 :: c3 :: s' =>
      if at_line_start b && (c1 =? star)%N && (c2 =? space)%N
         && negb (isLineTerminator c3)
      then let (l, r) := line_span s' in Some (c3 :: l, r)
      else None
  | _ => None
  end.

(** The result of [exec] that a capture and a remaining input stand for. *)
Definition as_match (b' : option N) (o : option (jsstring * jsstring)) : option mstate :=
  match o with
  | Some (t, r) => Some (MState b' r (Some t))
  | None => None
  end.

(** A text with no line terminator in it. *)
Definition one_line (l : jsstring) : Prop :=
  Forall (fun c => isLineTerminator c = false) l.

(** The character before the position that follows [m], when [b] is the
    character before [m]. *)
Definition before_after (b : option N) (m : jsstring) : option N :=
  match rev m with
  | [] => b
  | c :: _ => Some c
  end.

(** No two stars side by side in [s] and no star at its end: no bold marker
    begins in [s], nor at its last character with the one that follows. *)
Definition no_marker (s : jsstring) : Prop :=
  includes (s ++ [star]) [star; star] = false.

(** A line once the bullet pattern has gone over it. *)
Definition bullet_line (x : jsstring) : jsstring :=
  match x with
  | c1 :: c2 :: c3 :: l =>
      if (c1 =? star)%N && (c2 =? space)%N then bullet :: space :: c3 :: l else x
  | _ => x
  end.

(** The two passes of [formatMarkdown], by name. *)
Definition bold_pass (s : jsstring) : jsstring := replace_all bold_re bold_tpl s.
Definition bullet_pass (s : jsstring) : jsstring := replace_all bullet_re bullet_tpl s.

(* ================================================================== *)
(** ** The component state and the outside world *)

(** [a === b] on strings. *)
Fixpoint str_eqb (a b : jsstring) : bool :=
  match a, b with
  | [], [] => true
  | x :: a', y :: b' => (x =? y)%N && str_eqb a' b'
  | _, _ => false
  end.

Definition STYLES : list jsstring :=
  [lit "Gen Z"; lit "Shakespeare"; lit "Corporate"; lit "Yoda"; lit "Pirate";
   lit "Rap"; lit "Victorian Era"].

(** The [useState] cells of [App]. *)
Record AppState : Type := {
  input : jsstring;
  output : jsstring;
  selectedStyle : jsstring;
  loading : bool;
  theme : jsstring
}.

Definition initial : AppState :=
  {| input := []; output := []; selectedStyle := []; loading := false;
     theme := lit "dark" |}.

(** What is thrown inside the [try] block and caught: an object whose
    [message] is a string or is not there. *)
Record JsError : Type := { message : option jsstring }.

(** [error.message?.includes("needle")], read in a condition. *)
Definition mentions (error : JsError) (needle : string) : bool :=
  opt_includes (message error) (lit needle).

(** How the generation call settles: the response text, or a rejection. *)
Inductive reply : Type :=
| Resolved (text : jsstring)
| Rejected (error : JsError).

(** A call of [generateContent]: the model asked for and the prompt. *)
Record request : Type := { model : jsstring; prompt : jsstring }.

Inductive logline : Type :=
| ConsoleLog (text : jsstring)
| ConsoleError (label : jsstring) (error : JsError).

(** The component state with the two sinks the handler writes to: the
    requests that went out to the generation service, oldest first, and the
    console. *)
Record World : Type := {
  ui : AppState;
  sent : list request;
  console : list logline
}.

Definition setInput (v : jsstring) (w : World) : World :=
  {| ui := {| input := v; output := output (ui w);
              selectedStyle := selectedStyle (ui w);
              loading := loading (ui w); theme := theme (ui w) |};
     sent := sent w; console := console w |}.

Definition setOutput (v : jsstring) (w : World) : World :=
  {| ui := {| input := input (ui w); output := v;
              selectedStyle := selectedStyle (ui w);
              loading := loading (ui w); theme := theme (ui w) |};
     sent := sent w; console := console w |}.

Definition setSelectedStyle (v : jsstring) (w : World) : World :=
  {| ui := {| input := input (ui w); output := output (ui w);
              selectedStyle := v;
              loading := loading (ui w); theme := theme (ui w) |};
     sent := sent w; console := console w |}.

Definition setLoading (v : bool) (w : World) : World :=
  {| ui := {| input := input (ui w); output := output (ui w);
              selectedStyle := selectedStyle (ui w);
              loading := v; theme := theme (ui w) |};
     sent := sent w; console := console w |}.

Definition setTheme (v : jsstring) (w : World) : World :=
  {| ui := {| input := input (ui w); output := output (ui w);
              selectedStyle := selectedStyle (ui w);
              loading := loading (ui w); theme := v |};
     sent := sent w; console := console w |}.

Definition generateContent (q : request) (w : World) : World :=
  {| ui := ui w; sent := sent w ++ [q]; console := console w |}.

Definition console_write (l : logline) (w : World) : World :=
  {| ui := ui w; sent := sent w; console := console w ++ [l] |}.

Definition toggleTheme (w : World) : World :=
  setTheme (if str_eqb (theme (ui w)) (lit "dark") then lit "light" else lit "dark") w.

(* ================================================================== *)
(** ** handleTranslate *)

Definition warning_sign : jsstring := [9888; 65039]%N.   (* U+26A0 U+FE0F *)
Definition cross_mark : jsstring := [10060]%N.           (* U+274C *)

Definition msg_enter_text : jsstring :=
  warning_sign ++ lit " Please enter text and select a style first.".
Definition msg_no_key : jsstring :=
  cross_mark ++ lit " API key not found. Please check your .env file.".
Definition msg_invalid_key : jsstring :=
  cross_mark ++ lit " Invalid API key. Please check your environment variables.".
Definition msg_quota : jsstring :=
  cross_mark ++ lit " API quota exceeded. Please try again later.".
Definition msg_blocked : jsstring :=
  cross_mark ++
  lit " The response was blocked due to safety settings. Please try a different input.".
Definition msg_error_prefix : jsstring :=
  cross_mark ++ lit " An error occurred: ".

Definition make_prompt (style text : jsstring) : jsstring :=
  lit "Rewrite the following meeting notes in " ++ style ++ lit " style:" ++
  [LF; LF] ++ text.

(** Where a call of the handler stands when control leaves it for the first
    time: it has returned, or it waits for the generation call to settle. *)
Inductive suspended : Type :=
| Returned (w : World)
| Awaiting (q : request) (w : World).

(** The handler up to its first [await]. [apiKey] is what
    [import.meta.env.VITE_GEMINI_API_KEY] holds. *)
Definition handleTranslate_begin (apiKey : option jsstring) (w : World) : suspended :=
  if str_falsy (input (ui w)) || str_falsy (selectedStyle (ui w)) then
    Returned (setOutput msg_enter_text w)
  else if opt_falsy apiKey then
    Returned (setOutput msg_no_key w)
  else
    let w := setLoading true w in
    let w := setOutput [] w in
    let p := make_prompt (selectedStyle (ui w)) (input (ui w)) in
    let q := {| model := lit "gemini-1.5-flash"; prompt := p |} in
    Awaiting q (generateContent q w).

(** The [catch] block. *)
Definition handle_error (error : JsError) (w : World) : World :=
  let w := console_write (ConsoleError (lit "API Error:") error) w in
  if mentions error "API_KEY_INVALID"
     || mentions error "API key" then
    setOutput msg_invalid_key w
  else if mentions error "quota"
          || mentions error "limit" then
    setOutput msg_quota w
  else if mentions error "SAFETY"
          || mentions error "blocked" then
    setOutput msg_blocked w
  else
    setOutput (msg_error_prefix ++ to_display (message error)) w.

(** The handler from the point where the generation call settles: the rest
    of the [try] block or the [catch] block, then [finally]. *)
Definition handleTranslate_settle (r : reply) (w : World) : World :=
  let w :=
    match r with
    | Resolved text => setOutput text (console_write (ConsoleLog text) w)
    | Rejected error => handle_error error w
    end in
  setLoading false w.

(** A whole call of the handler against a stub of the generation service
    that answers each request at once. *)
Definition handleTranslate (apiKey : option jsstring) (gen : request -> reply)
    (w : World) : World :=
  match handleTranslate_begin apiKey w with
  | Returned w' => w'
  | Awaiting q w' => handleTranslate_settle (gen q) w'
  end.

(* ================================================================== *)
(** ** The specification's view: TranslationResult *)

Inductive ErrorCategory : Type :=
| ValidationError
| ConfigurationError
| AuthError
| QuotaError
| ContentPolicyError
| UnknownError.

Inductive TranslationResult : Type :=
| Success (text : jsstring)
| Failure (category : ErrorCategory) (msg : jsstring).

(** The branch of the [catch] block an error takes, as a result. *)
Definition classify (error : JsError) : TranslationResult :=
  if mentions error "API_KEY_INVALID"
     || mentions error "API key" then
    Failure AuthError msg_invalid_key
  else if mentions error "quota"
          || mentions error "limit" then
    Failure QuotaError msg_quota
  else if mentions error "SAFETY"
          || mentions error "blocked" then
    Failure ContentPolicyError msg_blocked
  else
    Failure UnknownError (msg_error_prefix ++ to_display (message error)).

(** The branch a call of the handler takes, as a result: the handler itself
    returns nothing and leaves the text of the result in [output]
    (see [handleTranslate_output]). *)
Definition translate (gen : request -> reply)
    (sourceText styleLabel : jsstring) (credential : option jsstring)
    : TranslationResult :=
  if str_falsy sourceText || str_falsy styleLabel then
    Failure ValidationError msg_enter_text
  else if opt_falsy credential then
    Failure ConfigurationError msg_no_key
  else
    match gen {| model := lit "gemini-1.5-flash";
                 prompt := make_prompt styleLabel sourceText |} with
    | Resolved text => Success text
    | Rejected error => classify error
    end.

(** The text of a result. *)
Definition shown (r : TranslationResult) : jsstring :=
  match r with
  | Success text => text
  | Failure _ m => m
  end.

(* ================================================================== *)
(** ** Rendering and the event loop *)

(** The output card: nothing while [output] is empty, and otherwise the
    markup handed to [dangerouslySetInnerHTML]. *)
Definition output_card (a : AppState) : option jsstring :=
  if str_falsy (output a) then None else Some (formatMarkdown (output a)).

(** The [disabled] attribute of the translate button. *)
Definition button_disabled (a : AppState) : bool :=
  loading a || str_falsy (input a) || str_falsy (selectedStyle a).

(** What can happen to the page: the user edits the notes, picks one of the
    radio buttons, toggles the theme or clicks the translate button, and a
    generation call in flight settles. *)
Inductive event : Type :=
| Typed (text : jsstring)
| Picked (style : jsstring)
| ThemeToggled
| Clicked
| Settled (r : reply).

(** The page: the world and the calls of the handler that wait for their
    generation call, oldest first. *)
Record Page : Type := {
  world : World;
  waiting : list request
}.

Definition page0 : Page :=
  {| world := {| ui := initial; sent := []; console := [] |}; waiting := [] |}.

Definition step (apiKey : option jsstring) (p : Page) (e : event) : Page :=
  match e with
  | Typed text => {| world := setInput text (world p); waiting := waiting p |}
  | Picked style =>
      if existsb (str_eqb style) STYLES then
        {| world := setSelectedStyle style (world p); waiting := waiting p |}
      else p
  | ThemeToggled => {| world := toggleTheme (world p); waiting := waiting p |}
  | Clicked =>
      if button_disabled (ui (world p)) then p
      else
        match handleTranslate_begin apiKey (world p) with
        | Returned w => {| world := w; waiting := waiting p |}
        | Awaiting q w => {| world := w; waiting := waiting p ++ [q] |}
        end
  | Settled r =>
      match waiting p with
      | [] => p
      | _ :: rest_waiting =>
          {| world := handleTranslate_settle r (world p); waiting := rest_waiting |}
      end
  end.

Definition run_events (apiKey : option jsstring) (es : list event) (p : Page) : Page :=
  fold_left (step apiKey) es p.

(** The events that end a call of the handler: a click the button lets
    through whose call returns before any request, and the settling of a
    request in flight. *)
Definition completes (apiKey : option jsstring) (p : Page) (e : event) : bool :=
  match e with
  | Clicked =>
      negb (button_disabled (ui (world p))) &&
      match handleTranslate_begin apiKey (world p) with
      | Returned _ => true
      | Awaiting _ _ => false
      end
  | Settled _ => match waiting p with [] => false | _ :: _ => true end
  | _ => false
  end.

(** Between two events the loading flag tells whether a call waits, and
    at most one does. *)
Definition page_ok (p : Page) : Prop :=
  loading (ui (world p)) = negb (match waiting p with [] => true | _ :: _ => false end)
  /\ length (waiting p) <= 1.

(* ================================================================== *)
(** ** Stubs of the generation service, and a world to start from *)

Definition stub_resolve (text : jsstring) (_ : request) : reply := Resolved text.

Definition stub_reject (error : JsError) (_ : request) : reply := Rejected error.

Definition world_of (text style : jsstring) : World :=
  setSelectedStyle style (setInput text (world page0)).

(* ================================================================== *)
(** ** getStyleClass *)

Definition dash : N := 45.   (* '-' *)

(** The characters of the class [\s]: WhiteSpace and LineTerminator. *)
Definition isWhiteSpace (c : N) : bool :=
  ((c =? 9) || (c =? 11) || (c =? 12) || (c =? 32) || (c =? 160) || (c =? 5760)
   || ((8192 <=? c) && (c <=? 8202)) || (c =? 8239) || (c =? 8287)
   || (c =? 12288) || (c =? 65279))%N
  || isLineTerminator c.

Definition isAscii (c : N) : bool := (c <? 128)%N.

Definition isUpperAscii (c : N) : bool := ((65 <=? c) && (c <=? 90))%N.

Definition lower_ascii (c : N) : N := if isUpperAscii c then (c + 32)%N else c.

(** [s.toLowerCase()], on the strings of ASCII code units, where it maps
    the letters A to Z one by one. The Unicode case mapping of the other
    code units is not modelled: [None] stands for a string outside the
    fragment, not for a failure of the call. *)
Definition toLowerCase (s : jsstring) : option jsstring :=
  if forallb isAscii s then Some (map lower_ascii s) else None.

(** [s.replace(/\s+/g, '-')]: each maximal run of white space becomes one
    dash. [in_run] tells that the character before belongs to a run that
    has been replaced already. *)
Fixpoint dash_runs (in_run : bool) (s : jsstring) {struct s} : jsstring :=
  match s with
  | [] => []
  | c :: s' =>
      if isWhiteSpace c then
        if in_run then dash_runs true s' else dash :: dash_runs true s'
      else c :: dash_runs false s'
  end.

Definition getStyleClass (style : jsstring) : option jsstring :=
  match toLowerCase style with
  | Some s => Some (dash_runs false s)
  | None => None
  end.

(** The catalog styles whose radio button is rendered checked. *)
Definition checked_radios (a : AppState) : list jsstring :=
  filter (fun style => str_eqb (selectedStyle a) style) STYLES.

(* ================================================================== *)
(** ** What holds of every page the events lead to *)

(** A request as the handler builds them. *)
Definition request_ok (q : request) : Prop :=
  model q = lit "gemini-1.5-flash"
  /\ exists style text,
       In style STYLES /\ text <> [] /\ prompt q = make_prompt style text.

Definition page_inv (apiKey : option jsstring) (p : Page) : Prop :=
  page_ok p
  /\ (selectedStyle (ui (world p)) = [] \/ In (selectedStyle (ui (world p))) STYLES)
  /\ (theme (ui (world p)) = lit "dark" \/ theme (ui (world p)) = lit "light")
  /\ Forall request_ok (sent (world p))
  /\ (exists settled,
         sent (world p) = settled ++ waiting p
         /\ length (console (world p)) = length settled)
  /\ (loading (ui (world p)) = true -> output (ui (world p)) = [])
  /\ (opt_falsy apiKey = true -> sent (world p) = []).

(** An error whose message holds the message of [error] between two other
    texts, as when an error is wrapped on its way up. *)
Definition wrap_error (before_m after_m : jsstring) (error : JsError) : JsError :=
  {| message :=
       match message error with
       | Some m => Some (before_m ++ m ++ after_m)
       | None => None
       end |}.

Definition category_of (r : TranslationResult) : option ErrorCategory :=
  match r with
  | Success _ => None
  | Failure c _ => Some c
  end.

(** A text in which the bold pattern matches at no position. *)
Fixpoint settled (x : jsstring) : Prop :=
  bold_match x = None
  /\ match x with
     | [] => True
     | _ :: x' => settled x'
     end.

(* ================================================================== *)
(** * Properties *)

(** ** Strings *)

Lemma eqb_star_false (c : N) : c <> star -> (c =? star)%N = false.
Proof. intro H. now apply N.eqb_neq. Qed.

Lemma firstn_app_length_diff (p s : jsstring) :
  firstn (length (p ++ s) - length s) (p ++ s) = p.
Proof.
  rewrite length_app, Nat.add_sub.
  rewrite firstn_app, Nat.sub_diag, firstn_all. cbn. apply app_nil_r.
Qed.

(** ** The matcher agrees with the closed forms *)

Lemma bold_tail_at (s0 p s : jsstring) (b : option N) (g : option jsstring) :
  s0 = p ++ s ->
  capture_then s0
    (run (Seq (Atom (Lit star)) (Atom (Lit star))) (fun st => Some st))
    (MState b s g)
  = if startsWith s [star; star]
    then Some (MState (Some star) (skipn 2 s) (Some p))
    else None.
Proof.
  intros ->. unfold capture_then. cbn [before rest].
  rewrite firstn_app_length_diff.
  destruct s as [|c [|d s']]; cbn; try reflexivity.
  - now destruct (c =? star)%N.
  - destruct (c =? star)%N eqn:Ec; [|reflexivity].
    destruct (d =? star)%N eqn:Ed; [|reflexivity].
    apply N.eqb_eq in Ed. subst d. now destruct s'.
Qed.

Lemma lazy_loop_close_bold (s0 : jsstring) (k : cont) :
  (forall p s b,
      s0 = p ++ s ->
      k (MState b s None)
      = if startsWith s [star; star]
        then Some (MState (Some star) (skipn 2 s) (Some p))
        else None) ->
  forall (s p : jsstring) (b : option N),
    s0 = p ++ s ->
    lazy_loop Dot k None b s
    = match close_bold s with
      | Some (t, r) => Some (MState (Some star) r (Some (p ++ t)))
      | None => None
      end.
Proof.
  intros Hk. induction s as [|c s IH]; intros p b E.
  - cbn [lazy_loop close_bold]. rewrite (Hk p [] b E). reflexivity.
  - cbn [lazy_loop close_bold]. rewrite (Hk p (c :: s) b E).
    destruct (startsWith (c :: s) [star; star]).
    + now rewrite app_nil_r.
    + cbn [atom_matches].
      destruct (isLineTerminator c); cbn [negb]; [reflexivity|].
      rewrite (IH (p ++ [c]) (Some c)).
      * destruct (close_bold s) as [[t r]|]; [|reflexivity].
        now rewrite <- app_assoc.
      * now rewrite <- app_assoc.
Qed.

(** A match attempt of the bold pattern is [bold_match]. *)
Lemma exec_bold_re (b : option N) (s : jsstring) :
  exec bold_re b s = as_match (Some star) (bold_match s).
Proof.
  unfold exec, bold_re, bold_match.
  destruct s as [|c1 [|c2 s']]; cbn [run rest atom_matches group1 before].
  - reflexivity.
  - now destruct (c1 =? star)%N.
  - destruct (c1 =? star)%N; [|reflexivity].
    destruct (c2 =? star)%N; [|reflexivity].
    cbn [andb].
    rewrite (lazy_loop_close_bold s') with (p := []).
    + reflexivity.
    + intros p s b0 E. now apply bold_tail_at.
    + reflexivity.
Qed.

Lemma line_span_app (s : jsstring) :
  fst (line_span s) ++ snd (line_span s) = s.
Proof.
  induction s as [|c s IH]; [reflexivity|].
  cbn [line_span]. destruct (isLineTerminator c); [reflexivity|].
  destruct (line_span s) as [l r]. cbn in *. now rewrite IH.
Qed.

Lemma greedy_loop_line_span (s0 : jsstring) (k : cont) (g : option jsstring) :
  (forall p s b,
      s0 = p ++ s ->
      match s with [] => True | c :: _ => isLineTerminator c = true end ->
      exists b', k (MState b s g) = Some (MState b' s (Some p))) ->
  forall (s p : jsstring) (b : option N),
    s0 = p ++ s ->
    exists b',
      greedy_loop Dot k g b s
      = Some (MState b' (snd (line_span s)) (Some (p ++ fst (line_span s)))).
Proof.
  intros Hk. induction s as [|c s IH]; intros p b E.
  - cbn [greedy_loop line_span fst snd]. rewrite app_nil_r. now apply Hk.
  - cbn [greedy_loop line_span atom_matches].
    destruct (isLineTerminator c) eqn:Ec; cbn [negb fst snd].
    + rewrite app_nil_r. now apply Hk.
    + destruct (IH (p ++ [c]) (Some c)) as [b' Hb'].
      { now rewrite <- app_assoc. }
      rewrite Hb'. exists b'.
      destruct (line_span s) as [l r]. cbn [fst snd].
      now rewrite <- app_assoc.
Qed.

(** A match attempt of the bullet pattern is [bullet_match]. *)
Lemma exec_bullet_re (b : option N) (s : jsstring) :
  exists b', exec bullet_re b s = as_match b' (bullet_match b s).
Proof.
  unfold exec, bullet_re, bullet_match.
  assert (Hnone : forall o : option mstate,
             match b with
             | None => o
             | Some c => if isLineTerminator c then o else None
             end = if at_line_start b then o else None).
  { intro o. destruct b as [c|]; reflexivity. }
  cbn [run before]. rewrite Hnone.
  destruct s as [|c1 [|c2 [|c3 s']]]; cbn [run rest atom_matches group1 before].
  - exists None. now destruct (at_line_start b).
  - exists None. destruct (at_line_start b); [|reflexivity]. now destruct (c1 =? star)%N.
  - exists None. destruct (at_line_start b); [|reflexivity].
    destruct (c1 =? star)%N; [|reflexivity]. now destruct (c2 =? space)%N.
  - destruct (at_line_start b); [|now exists None].
    destruct (c1 =? star)%N; [|now exists None].
    destruct (c2 =? space)%N; [|now exists None].
    cbn [andb]. destruct (isLineTerminator c3) eqn:E3; cbn [negb]; [now exists None|].
    destruct (greedy_loop_line_span (c3 :: s')
                (capture_then (c3 :: s') (run EolM (fun st => Some st))) None)
      with (s := s') (p := [c3]) (b := Some c3) as [b' Hb'].
    + intros p s b0 E Heol. exists b0. unfold capture_then. cbn [before rest run].
      rewrite E, firstn_app_length_diff.
      destruct s as [|c s]; [reflexivity|]. now rewrite Heol.
    + reflexivity.
    + exists b'. cbn [run] in Hb'. rewrite Hb'. now destruct (line_span s') as [l r].
Qed.

(** ** Replacement, through the closed form of the match *)

Lemma before_after_cons (b : option N) (c : N) (m : jsstring) :
  before_after (Some c) m = before_after b (c :: m).
Proof.
  unfold before_after. cbn [rev].
  destruct (rev m) as [|d l]; reflexivity.
Qed.

Section Replace.
Variable r : regex.
Variable tpl : list piece.
Variable mf : option N -> jsstring -> option (jsstring * jsstring).
Hypothesis exec_mf : forall b s, exists b', exec r b s = as_match b' (mf b s).

Lemma replace_loop_step (b : option N) (s : jsstring) :
  replace_loop r tpl 0 b s
  = match mf b s with
    | None =>
        match s with
        | [] => []
        | c :: s' => c :: replace_loop r tpl 0 (Some c) s'
        end
    | Some (t, rst) =>
        expand tpl (Some t) ++
        match s with
        | [] => []
        | c :: s' =>
            match length s - length rst with
            | O => c :: replace_loop r tpl 0 (Some c) s'
            | S n => replace_loop r tpl n (Some c) s'
            end
        end
    end.
Proof.
  destruct (exec_mf b s) as [b' E].
  destruct s as [|c s']; cbn [replace_loop]; rewrite E;
    destruct (mf b _) as [[t rst]|]; cbn [as_match group1 rest];
    rewrite ?app_nil_r; reflexivity.
Qed.

Lemma replace_loop_skip (m rst : jsstring) (b : option N) :
  replace_loop r tpl (length m) b (m ++ rst)
  = replace_loop r tpl 0 (before_after b m) rst.
Proof.
  revert b. induction m as [|c m IH]; intro b.
  - reflexivity.
  - rewrite <- app_comm_cons. cbn [length replace_loop]. rewrite IH.
    f_equal. apply before_after_cons.
Qed.

(** A match that consumes the non-empty [m] is replaced, and the search
    goes on after it. *)
Lemma replace_loop_match (b : option N) (m t rst : jsstring) :
  m <> [] ->
  mf b (m ++ rst) = Some (t, rst) ->
  replace_loop r tpl 0 b (m ++ rst)
  = expand tpl (Some t) ++ replace_loop r tpl 0 (before_after b m) rst.
Proof.
  intros Hm E. rewrite replace_loop_step, E.
  destruct m as [|c m]; [contradiction|].
  rewrite <- app_comm_cons. f_equal.
  replace (length (c :: m ++ rst) - length rst) with (S (length m)).
  - rewrite replace_loop_skip. f_equal. apply before_after_cons.
  - cbn [length]. rewrite length_app. lia.
Qed.

Lemma replace_loop_miss (b : option N) (c : N) (s : jsstring) :
  mf b (c :: s) = None ->
  replace_loop r tpl 0 b (c :: s) = c :: replace_loop r tpl 0 (Some c) s.
Proof. intro E. now rewrite replace_loop_step, E. Qed.

Lemma replace_loop_end (b : option N) :
  mf b [] = None -> replace_loop r tpl 0 b [] = [].
Proof. intro E. now rewrite replace_loop_step, E. Qed.

(** *** Lines are replaced one by one *)

Hypothesis mf_consumes :
  forall b s t rst, mf b s = Some (t, rst) ->
    exists m, m <> [] /\ s = m ++ rst.
Hypothesis mf_line :
  forall b l nl s, one_line l -> isLineTerminator nl = true ->
    mf b (l ++ nl :: s)
    = match mf b l with
      | Some (t, rst) => Some (t, rst ++ nl :: s)
      | None => None
      end.

Lemma mf_nil (b : option N) : mf b [] = None.
Proof.
  destruct (mf b []) as [[t rst]|] eqn:E; [|reflexivity].
  destruct (mf_consumes _ _ _ _ E) as (m & Hm & Hs).
  destruct m; [contradiction | discriminate].
Qed.

Lemma replace_loop_line (nl : N) (s : jsstring) :
  isLineTerminator nl = true ->
  forall (l : jsstring) (skip : nat) (b : option N),
    one_line l -> skip <= length l ->
    replace_loop r tpl skip b (l ++ nl :: s)
    = replace_loop r tpl skip b l ++ nl :: replace_loop r tpl 0 (Some nl) s.
Proof.
  intros Hnl. induction l as [|c l IH]; intros skip b Hl Hskip.
  - assert (skip = 0) as -> by (cbn in Hskip; lia).
    rewrite (replace_loop_end b (mf_nil b)).
    rewrite !app_nil_l. apply replace_loop_miss.
    change (nl :: s) with ([] ++ nl :: s).
    rewrite (mf_line b [] nl s Hl Hnl). now rewrite mf_nil.
  - pose proof (Forall_inv_tail Hl) as Hl'.
    destruct skip as [|n].
    + rewrite (replace_loop_step b (c :: l)).
      rewrite (replace_loop_step b ((c :: l) ++ nl :: s)).
      rewrite (mf_line b (c :: l) nl s Hl Hnl).
      destruct (mf b (c :: l)) as [[t rst]|] eqn:E.
      * destruct (mf_consumes _ _ _ _ E) as (m & Hm & Hs).
        rewrite <- app_assoc. f_equal.
        rewrite <- app_comm_cons.
        replace (length (c :: l ++ nl :: s) - length (rst ++ nl :: s))
          with (length (c :: l) - length rst)
          by (cbn [length]; rewrite !length_app; cbn [length]; lia).
        assert (Hlen : length (c :: l) = length m + length rst)
          by (rewrite Hs; apply length_app).
        destruct m as [|c0 m]; [contradiction|].
        cbn [length] in Hlen.
        replace (length (c :: l) - length rst) with (S (length m))
          by (cbn [length]; lia).
        apply IH; [exact Hl' | lia].
      * rewrite <- !app_comm_cons. f_equal. apply IH; [exact Hl' | lia].
    + rewrite <- app_comm_cons. cbn [replace_loop].
      apply IH; [exact Hl' | cbn in Hskip; lia].
Qed.
End Replace.

(** ** The bold pattern *)

Lemma line_terminator_not_star (c : N) :
  isLineTerminator c = true -> (c =? star)%N = false.
Proof.
  intro H. apply N.eqb_neq. intros ->. discriminate H.
Qed.

Lemma close_bold_some (s t r : jsstring) :
  close_bold s = Some (t, r) -> s = t ++ [star; star] ++ r /\ one_line t.
Proof.
  revert t r. induction s as [|c s IH]; intros t r E; [discriminate|].
  cbn [close_bold] in E.
  destruct (startsWith (c :: s) [star; star]) eqn:Es.
  - injection E as <- <-. split; [|constructor].
    destruct s as [|d s']; cbn in Es.
    + now rewrite andb_false_r in Es.
    + destruct (c =? star)%N eqn:Ec; [|discriminate].
      destruct (d =? star)%N eqn:Ed; [|discriminate].
      apply N.eqb_eq in Ec, Ed. now subst.
  - destruct (isLineTerminator c) eqn:Ec; [discriminate|].
    destruct (close_bold s) as [[t' r']|]; [|discriminate].
    injection E as <- <-.
    destruct (IH t' r' eq_refl) as [-> Ht]. split; [reflexivity|].
    now constructor.
Qed.

Lemma no_marker_cons (c : N) (s : jsstring) :
  no_marker (c :: s) ->
  (forall rest, startsWith (c :: s ++ star :: rest) [star; star] = false)
  /\ no_marker s.
Proof.
  unfold no_marker. rewrite <- app_comm_cons. cbn [includes].
  intro H. apply orb_false_elim in H. destruct H as [H1 H2].
  split; [|exact H2].
  intro rest. destruct s as [|d s']; cbn in *; [|exact H1].
  destruct (c =? star)%N; [discriminate H1 | reflexivity].
Qed.

Lemma no_star_no_marker (s : jsstring) : ~ In star s -> no_marker s.
Proof.
  unfold no_marker. induction s as [|c s IH]; intro H; [reflexivity|].
  rewrite <- app_comm_cons. cbn [includes startsWith].
  rewrite (eqb_star_false c) by (intro; apply H; now left).
  cbn [andb orb]. apply IH. intro; apply H; now right.
Qed.

Lemma close_bold_found (t r : jsstring) :
  no_marker t -> one_line t ->
  close_bold (t ++ [star; star] ++ r) = Some (t, r).
Proof.
  induction t as [|c t IH]; intros Hs Hl.
  - reflexivity.
  - destruct (no_marker_cons c t Hs) as [Hc Ht].
    rewrite <- app_comm_cons. cbn [close_bold].
    change (t ++ [star; star] ++ r) with (t ++ star :: star :: r).
    rewrite (Hc (star :: r)), (Forall_inv Hl).
    change (t ++ star :: star :: r) with (t ++ [star; star] ++ r).
    now rewrite (IH Ht (Forall_inv_tail Hl)).
Qed.

Lemma close_bold_line (l : jsstring) (nl : N) (s : jsstring) :
  one_line l -> isLineTerminator nl = true ->
  close_bold (l ++ nl :: s)
  = match close_bold l with
    | Some (t, r) => Some (t, r ++ nl :: s)
    | None => None
    end.
Proof.
  intros Hl Hnl. induction l as [|c l IH].
  - cbn. rewrite (line_terminator_not_star nl Hnl). cbn. now rewrite Hnl.
  - rewrite <- app_comm_cons. cbn [close_bold].
    assert (Es : startsWith (c :: l ++ nl :: s) [star; star]
                 = startsWith (c :: l) [star; star]).
    { cbn [startsWith]. destruct l as [|d l']; cbn [app startsWith].
      - now rewrite (line_terminator_not_star nl Hnl), !andb_false_r.
      - reflexivity. }
    rewrite Es. destruct (startsWith (c :: l) [star; star]) eqn:E2.
    + destruct l as [|d l']; [cbn in E2; now rewrite andb_false_r in E2|].
      reflexivity.
    + rewrite (Forall_inv Hl), (IH (Forall_inv_tail Hl)).
      now destruct (close_bold l) as [[t r]|].
Qed.

Lemma exec_bold_mf (b : option N) (s : jsstring) :
  exists b', exec bold_re b s = as_match b' (bold_mf b s).
Proof. exists (Some star). apply exec_bold_re. Qed.

Lemma bold_mf_consumes (b : option N) (s t rst : jsstring) :
  bold_mf b s = Some (t, rst) -> exists m, m <> [] /\ s = m ++ rst.
Proof.
  unfold bold_mf, bold_match. intro E.
  destruct s as [|c1 [|c2 s']]; try discriminate.
  destruct ((c1 =? star)%N && (c2 =? star)%N); [|discriminate].
  destruct (close_bold_some _ _ _ E) as [-> _].
  exists (c1 :: c2 :: t ++ [star; star]). split; [discriminate|].
  cbn. now rewrite <- app_assoc.
Qed.

Lemma bold_mf_line (b : option N) (l : jsstring) (nl : N) (s : jsstring) :
  one_line l -> isLineTerminator nl = true ->
  bold_mf b (l ++ nl :: s)
  = match bold_mf b l with
    | Some (t, rst) => Some (t, rst ++ nl :: s)
    | None => None
    end.
Proof.
  intros Hl Hnl. unfold bold_mf, bold_match.
  destruct l as [|c1 [|c2 l']]; cbn [app].
  - rewrite (line_terminator_not_star nl Hnl). now destruct s.
  - now rewrite (line_terminator_not_star nl Hnl), andb_false_r.
  - destruct ((c1 =? star)%N && (c2 =? star)%N); [|reflexivity].
    apply close_bold_line; [|exact Hnl].
    exact (Forall_inv_tail (Forall_inv_tail Hl)).
Qed.

(** The bold pattern has no anchor: the search does not look behind. *)
Lemma bold_loop_before (b b' : option N) (s : jsstring) :
  replace_loop bold_re bold_tpl 0 b s = replace_loop bold_re bold_tpl 0 b' s.
Proof.
  now rewrite !(replace_loop_step bold_re bold_tpl bold_mf exec_bold_mf).
Qed.

Lemma bold_loop_miss (b : option N) (c : N) (s : jsstring) :
  c <> star ->
  replace_loop bold_re bold_tpl 0 b (c :: s) = c :: replace_loop bold_re bold_tpl 0 None s.
Proof.
  intro Hc.
  rewrite (replace_loop_miss bold_re bold_tpl bold_mf exec_bold_mf).
  - f_equal. apply bold_loop_before.
  - unfold bold_mf, bold_match. destruct s; [reflexivity|].
    now rewrite (eqb_star_false c Hc).
Qed.

(** The first pair of bold markers of a text, when no marker begins in what
    precedes it nor in what it encloses, is replaced; the search goes on
    after the closing marker. *)
Lemma bold_pass_pair (a t r : jsstring) :
  no_marker a -> no_marker t -> one_line t ->
  bold_pass (a ++ [star; star] ++ t ++ [star; star] ++ r)
  = a ++ lit "<strong>" ++ t ++ lit "</strong>" ++ bold_pass r.
Proof.
  intros Ha Ht Hl. unfold bold_pass, replace_all.
  generalize (@None N) at 1. induction a as [|c a IH]; intro b.
  - rewrite app_nil_l.
    replace ([star; star] ++ t ++ [star; star] ++ r)
      with (([star; star] ++ t ++ [star; star]) ++ r)
      by (now rewrite <- !app_assoc).
    rewrite (replace_loop_match bold_re bold_tpl bold_mf exec_bold_mf)
      with (t := t).
    + cbn [expand flat_map expand_piece bold_tpl]. rewrite <- !app_assoc.
      rewrite !app_nil_l. do 3 f_equal. apply bold_loop_before.
    + discriminate.
    + unfold bold_mf, bold_match. rewrite <- !app_assoc. cbn [List.app].
      change ((star =? star)%N && (star =? star)%N) with true. cbv iota.
      now apply (close_bold_found t r).
  - destruct (no_marker_cons c a Ha) as [Hc Ha'].
    rewrite <- !app_comm_cons.
    rewrite (replace_loop_miss bold_re bold_tpl bold_mf exec_bold_mf).
    + f_equal. now apply IH.
    + unfold bold_mf, bold_match.
      specialize (Hc (star :: t ++ [star; star] ++ r)).
      match goal with
      | |- match ?x with _ => _ end = _ =>
          change (startsWith (c :: x) [star; star] = false) in Hc;
          destruct x as [|d rest]
      end; [reflexivity|].
      cbn [startsWith] in Hc. rewrite andb_true_r in Hc. now rewrite Hc.
Qed.

Lemma bold_pass_line (l : jsstring) (nl : N) (s : jsstring) :
  one_line l -> isLineTerminator nl = true ->
  bold_pass (l ++ nl :: s) = bold_pass l ++ nl :: bold_pass s.
Proof.
  intros Hl Hnl. unfold bold_pass, replace_all.
  rewrite (replace_loop_line bold_re bold_tpl bold_mf exec_bold_mf
             bold_mf_consumes bold_mf_line nl s Hnl l 0 None Hl (Nat.le_0_l _)).
  do 2 f_equal. apply bold_loop_before.
Qed.

Lemma one_line_lit_strong : one_line (lit "<strong>") /\ one_line (lit "</strong>").
Proof. split; repeat constructor. Qed.

Lemma bold_loop_one_line (s : jsstring) :
  one_line s ->
  forall skip b, one_line (replace_loop bold_re bold_tpl skip b s).
Proof.
  induction s as [|c s IH]; intros Hs skip b.
  - destruct skip; [|constructor].
    rewrite (replace_loop_step bold_re bold_tpl bold_mf exec_bold_mf).
    cbn. constructor.
  - pose proof (Forall_inv_tail Hs) as Hs'.
    destruct skip as [|n]; [|cbn [replace_loop]; now apply IH].
    rewrite (replace_loop_step bold_re bold_tpl bold_mf exec_bold_mf).
    destruct (bold_mf b (c :: s)) as [[t rst]|] eqn:E.
    + apply Forall_app. split.
      * unfold bold_mf, bold_match in E. destruct s as [|c2 s']; [discriminate|].
        destruct ((c =? star)%N && (c2 =? star)%N); [|discriminate].
        destruct (close_bold_some _ _ _ E) as [_ Ht].
        cbn [expand flat_map expand_piece bold_tpl]. rewrite app_nil_r.
        destruct one_line_lit_strong as [H1 H2].
        apply Forall_app; split; [exact H1|]. now apply Forall_app.
      * destruct (length (c :: s) - length rst).
        -- constructor; [exact (Forall_inv Hs)|]. now apply IH.
        -- now apply IH.
    + constructor; [exact (Forall_inv Hs)|]. now apply IH.
Qed.

Lemma bold_pass_one_line (s : jsstring) : one_line s -> one_line (bold_pass s).
Proof. intro H. now apply bold_loop_one_line. Qed.

Lemma bold_pass_not_nil (s : jsstring) : s <> [] -> bold_pass s <> [].
Proof.
  intro Hs. unfold bold_pass, replace_all.
  rewrite (replace_loop_step bold_re bold_tpl bold_mf exec_bold_mf).
  destruct s as [|c s]; [contradiction|].
  destruct (bold_mf None (c :: s)) as [[t rst]|]; discriminate.
Qed.

(** ** The bullet pattern *)

Lemma line_span_one_line (l : jsstring) : one_line l -> line_span l = (l, []).
Proof.
  induction l as [|c l IH]; intro Hl; [reflexivity|].
  cbn [line_span]. rewrite (Forall_inv Hl), (IH (Forall_inv_tail Hl)). reflexivity.
Qed.

Lemma line_span_line (l : jsstring) (nl : N) (s : jsstring) :
  one_line l -> isLineTerminator nl = true ->
  line_span (l ++ nl :: s) = (l, nl :: s).
Proof.
  intros Hl Hnl. induction l as [|c l IH].
  - cbn. now rewrite Hnl.
  - rewrite <- app_comm_cons. cbn [line_span].
    rewrite (Forall_inv Hl), (IH (Forall_inv_tail Hl)). reflexivity.
Qed.

Lemma bullet_match_consumes (b : option N) (s t rst : jsstring) :
  bullet_match b s = Some (t, rst) -> exists m, m <> [] /\ s = m ++ rst.
Proof.
  unfold bullet_match. intro E.
  destruct s as [|c1 [|c2 [|c3 s']]]; try discriminate.
  destruct (at_line_start b && (c1 =? star)%N && (c2 =? space)%N
            && negb (isLineTerminator c3)); [|discriminate].
  pose proof (line_span_app s') as Happ.
  destruct (line_span s') as [l r]. injection E as <- <-.
  exists (c1 :: c2 :: c3 :: l). split; [discriminate|].
  cbn in *. now rewrite Happ.
Qed.

Lemma bullet_match_line (b : option N) (l : jsstring) (nl : N) (s : jsstring) :
  one_line l -> isLineTerminator nl = true ->
  bullet_match b (l ++ nl :: s)
  = match bullet_match b l with
    | Some (t, rst) => Some (t, rst ++ nl :: s)
    | None => None
    end.
Proof.
  intros Hl Hnl. unfold bullet_match.
  destruct l as [|c1 [|c2 [|c3 l']]]; cbn [List.app].
  - rewrite (line_terminator_not_star nl Hnl), andb_false_r.
    now destruct s as [|? [|? ?]].
  - destruct s; [reflexivity|].
    replace ((nl =? space)%N) with false; [now rewrite andb_false_r|].
    symmetry. apply N.eqb_neq. intros ->. discriminate Hnl.
  - now rewrite Hnl, andb_false_r.
  - destruct (at_line_start b && (c1 =? star)%N && (c2 =? space)%N
              && negb (isLineTerminator c3)); [|reflexivity].
    assert (Hl' : one_line l')
      by exact (Forall_inv_tail (Forall_inv_tail (Forall_inv_tail Hl))).
    now rewrite (line_span_line l' nl s Hl' Hnl), (line_span_one_line l' Hl').
Qed.

Lemma bullet_match_before (b b' : option N) (s : jsstring) :
  at_line_start b = at_line_start b' -> bullet_match b s = bullet_match b' s.
Proof. intro E. unfold bullet_match. now rewrite E. Qed.

(** The search of the bullet pattern looks behind only to tell whether it
    stands at the start of a line. *)
Lemma bullet_loop_before (b b' : option N) (s : jsstring) :
  at_line_start b = at_line_start b' ->
  replace_loop bullet_re bullet_tpl 0 b s = replace_loop bullet_re bullet_tpl 0 b' s.
Proof.
  intro E.
  rewrite !(replace_loop_step bullet_re bullet_tpl bullet_match exec_bullet_re).
  now rewrite (bullet_match_before b b' s E).
Qed.

Lemma bullet_pass_line (l : jsstring) (nl : N) (s : jsstring) :
  one_line l -> isLineTerminator nl = true ->
  bullet_pass (l ++ nl :: s) = bullet_pass l ++ nl :: bullet_pass s.
Proof.
  intros Hl Hnl. unfold bullet_pass, replace_all.
  rewrite (replace_loop_line bullet_re bullet_tpl bullet_match exec_bullet_re
             bullet_match_consumes bullet_match_line nl s Hnl l 0 None Hl
             (Nat.le_0_l _)).
  do 2 f_equal. apply bullet_loop_before. exact Hnl.
Qed.

(** Inside a line nothing is replaced. *)
Lemma bullet_loop_inside (s : jsstring) :
  one_line s ->
  forall b, at_line_start b = false ->
    replace_loop bullet_re bullet_tpl 0 b s = s.
Proof.
  induction s as [|c s IH]; intros Hs b Hb;
    rewrite (replace_loop_step bullet_re bullet_tpl bullet_match exec_bullet_re).
  - reflexivity.
  - assert (E : bullet_match b (c :: s) = None).
    { unfold bullet_match. destruct s as [|c2 [|c3 s']]; try reflexivity.
      now rewrite Hb. }
    rewrite E. f_equal. apply IH; [exact (Forall_inv_tail Hs)|].
    exact (Forall_inv Hs).
Qed.

(** A line that does not begin with a star is left as it is. *)
Lemma bullet_loop_other_line (c : N) (s : jsstring) (b : option N) :
  c <> star -> one_line (c :: s) ->
  replace_loop bullet_re bullet_tpl 0 b (c :: s) = c :: s.
Proof.
  intros Hc Hs.
  rewrite (replace_loop_miss bullet_re bullet_tpl bullet_match exec_bullet_re).
  - f_equal. apply bullet_loop_inside; [exact (Forall_inv_tail Hs)|].
    exact (Forall_inv Hs).
  - unfold bullet_match. destruct s as [|c2 [|c3 s']]; try reflexivity.
    now rewrite (eqb_star_false c Hc), andb_false_r.
Qed.

(** The bullet pass over a text of one line. *)
Lemma bullet_pass_one_line (x : jsstring) :
  one_line x -> bullet_pass x = bullet_line x.
Proof.
  intro Hx. unfold bullet_pass, replace_all, bullet_line.
  destruct x as [|c1 x1].
  { now apply (replace_loop_end bullet_re bullet_tpl bullet_match exec_bullet_re). }
  assert (Hin : replace_loop bullet_re bullet_tpl 0 (Some c1) x1 = x1).
  { apply bullet_loop_inside; [exact (Forall_inv_tail Hx) | exact (Forall_inv Hx)]. }
  destruct x1 as [|c2 [|c3 l]].
  - rewrite (replace_loop_miss bullet_re bullet_tpl bullet_match exec_bullet_re)
      by reflexivity.
    now rewrite Hin.
  - rewrite (replace_loop_miss bullet_re bullet_tpl bullet_match exec_bullet_re)
      by reflexivity.
    now rewrite Hin.
  - destruct ((c1 =? star)%N && (c2 =? space)%N) eqn:E.
    + assert (Hl : one_line (c3 :: l))
        by exact (Forall_inv_tail (Forall_inv_tail Hx)).
      rewrite <- (app_nil_r (c1 :: c2 :: c3 :: l)).
      rewrite (replace_loop_match bullet_re bullet_tpl bullet_match exec_bullet_re)
        with (t := c3 :: l).
      * rewrite (replace_loop_end bullet_re bullet_tpl bullet_match exec_bullet_re)
          by reflexivity.
        cbn [expand flat_map expand_piece bullet_tpl List.app].
        now rewrite !app_nil_r.
      * discriminate.
      * unfold bullet_match. cbn [List.app at_line_start].
        apply andb_prop in E. destruct E as [E1 E2].
        rewrite E1, E2, (Forall_inv Hl). cbn [andb negb].
        now rewrite app_nil_r, (line_span_one_line l (Forall_inv_tail Hl)).
    + rewrite (replace_loop_miss bullet_re bullet_tpl bullet_match exec_bullet_re).
      * now rewrite Hin.
      * unfold bullet_match. cbn [at_line_start]. rewrite andb_true_l, E.
        reflexivity.
Qed.

(** A line made of a star, a space and at least one more character. *)
Lemma bullet_pass_item (l : jsstring) :
  l <> [] -> one_line l ->
  bullet_pass (star :: space :: l) = bullet :: space :: l.
Proof.
  intros Hne Hl. rewrite bullet_pass_one_line.
  - destruct l as [|c l]; [contradiction | reflexivity].
  - constructor; [reflexivity|]. constructor; [reflexivity | exact Hl].
Qed.

(** The bullet pattern over a line of which [a] is the beginning: it looks
    at the first two characters and needs a third. *)
Lemma bullet_line_prefix (a : jsstring) (y : N) (rest : jsstring) :
  no_marker a -> y <> star ->
  bullet_line (a ++ y :: rest)
  = (if startsWith a [star; space] then [bullet; space] ++ skipn 2 a else a)
    ++ y :: rest.
Proof.
  intros Ha Hy. destruct a as [|c1 [|c2 a']].
  - cbn [List.app startsWith bullet_line].
    destruct rest as [|y2 [|y3 rest']]; try reflexivity.
    now rewrite (eqb_star_false y Hy).
  - assert (Hc : (c1 =? star)%N = false).
    { destruct (no_marker_cons c1 [] Ha) as [Hc _]. specialize (Hc []).
      cbn in Hc. now destruct (c1 =? star)%N. }
    cbn [List.app startsWith bullet_line]. rewrite Hc.
    destruct rest; reflexivity.
  - cbn [startsWith skipn]. rewrite andb_true_r.
    rewrite <- !app_comm_cons. unfold bullet_line.
    destruct (a' ++ y :: rest) as [|c3 l] eqn:E.
    + destruct a'; discriminate E.
    + destruct ((c1 =? star)%N && (c2 =? space)%N); [|now rewrite <- E].
      cbn [List.app]. now rewrite <- E.
Qed.

(** ** The two patterns fail where no star stands *)

Lemma exec_bold_nil (b : option N) : exec bold_re b [] = None.
Proof. reflexivity. Qed.

Lemma exec_bold_no_star (b : option N) (c : N) (s : jsstring) :
  c <> star -> exec bold_re b (c :: s) = None.
Proof.
  intro H. unfold exec, bold_re. cbn [run rest atom_matches].
  now rewrite (eqb_star_false c H).
Qed.

Lemma exec_bullet_nil (b : option N) : exec bullet_re b [] = None.
Proof.
  unfold exec, bullet_re. cbn.
  destruct b as [c|]; [destruct (isLineTerminator c)|]; reflexivity.
Qed.

Lemma exec_bullet_no_star (b : option N) (c : N) (s : jsstring) :
  c <> star -> exec bullet_re b (c :: s) = None.
Proof.
  intro H. unfold exec, bullet_re. cbn [run rest before atom_matches].
  rewrite (eqb_star_false c H).
  destruct b as [d|]; [destruct (isLineTerminator d)|]; reflexivity.
Qed.

Section NoMatch.
Variable r : regex.
Variable tpl : list piece.
Hypothesis exec_nil : forall b, exec r b [] = None.
Hypothesis exec_no_star : forall b c s, c <> star -> exec r b (c :: s) = None.

Lemma replace_loop_no_star (s : jsstring) :
  ~ In star s -> forall b, replace_loop r tpl 0 b s = s.
Proof.
  induction s as [|c s IH]; intros Hs b.
  - cbn. now rewrite exec_nil.
  - cbn [replace_loop]. rewrite exec_no_star.
    + f_equal. apply IH. intro Hin. apply Hs. now right.
    + intro Hc. apply Hs. now left.
Qed.
End NoMatch.

Lemma bold_no_star (s : jsstring) (b : option N) :
  ~ In star s -> replace_loop bold_re bold_tpl 0 b s = s.
Proof.
  intro H. apply replace_loop_no_star; auto using exec_bold_nil, exec_bold_no_star.
Qed.

Lemma bullet_no_star (s : jsstring) (b : option N) :
  ~ In star s -> replace_loop bullet_re bullet_tpl 0 b s = s.
Proof.
  intro H. apply replace_loop_no_star; auto using exec_bullet_nil, exec_bullet_no_star.
Qed.

(** C9. The post-processing transformation is the identity on a text with
    no asterisk: for every string [s] in which the character [*] does not
    occur, [formatMarkdown s = s]. *)
Theorem formatMarkdown_no_star (s : jsstring) :
  ~ In star s -> formatMarkdown s = s.
Proof.
  intro H. unfold formatMarkdown, replace_all.
  rewrite (bold_no_star s None H). now apply bullet_no_star.
Qed.

Lemma formatMarkdown_no_star_witness :
  ~ In star (lit "no asterisk here") /\
  formatMarkdown (lit "no asterisk here") = lit "no asterisk here".
Proof.
  assert (H : ~ In star (lit "no asterisk here")).
  { cbn. intros H. repeat (destruct H as [H|H]; [discriminate H|]). exact H. }
  split; [exact H | exact (formatMarkdown_no_star _ H)].
Defined.

(** ** formatMarkdown, line by line *)

Lemma formatMarkdown_passes (s : jsstring) :
  formatMarkdown s = bullet_pass (bold_pass s).
Proof. reflexivity. Qed.

Lemma formatMarkdown_line (l : jsstring) (nl : N) (s : jsstring) :
  one_line l -> isLineTerminator nl = true ->
  formatMarkdown (l ++ nl :: s) = formatMarkdown l ++ nl :: formatMarkdown s.
Proof.
  intros Hl Hnl. rewrite !formatMarkdown_passes.
  rewrite (bold_pass_line l nl s Hl Hnl).
  apply bullet_pass_line; [|exact Hnl]. now apply bold_pass_one_line.
Qed.

Lemma formatMarkdown_item (l : jsstring) :
  l <> [] -> one_line l ->
  formatMarkdown ([star; space] ++ l) = [bullet; space] ++ bold_pass l.
Proof.
  intros Hne Hl. rewrite formatMarkdown_passes.
  assert (E : bold_pass ([star; space] ++ l) = star :: space :: bold_pass l).
  { unfold bold_pass, replace_all. cbn [List.app].
    rewrite (replace_loop_miss bold_re bold_tpl bold_mf exec_bold_mf)
      by reflexivity.
    rewrite bold_loop_miss by discriminate. reflexivity. }
  rewrite E. apply bullet_pass_item.
  - now apply bold_pass_not_nil.
  - now apply bold_pass_one_line.
Qed.

Lemma formatMarkdown_pair (a t r : jsstring) :
  one_line (a ++ t ++ r) -> no_marker a -> no_marker t ->
  formatMarkdown (a ++ [star; star] ++ t ++ [star; star] ++ r)
  = (if startsWith a [star; space] then [bullet; space] ++ skipn 2 a else a)
    ++ lit "<strong>" ++ t ++ lit "</strong>" ++ bold_pass r.
Proof.
  intros Hl Ha Ht. rewrite formatMarkdown_passes.
  apply Forall_app in Hl. destruct Hl as [Hla Hl].
  apply Forall_app in Hl. destruct Hl as [Hlt Hlr].
  rewrite (bold_pass_pair a t r Ha Ht Hlt).
  destruct one_line_lit_strong as [H1 H2].
  rewrite bullet_pass_one_line.
  - change (lit "<strong>") with (60%N :: lit "strong>").
    rewrite <- app_comm_cons. now apply bullet_line_prefix.
  - apply Forall_app; split; [exact Hla|].
    apply Forall_app; split; [exact H1|].
    apply Forall_app; split; [exact Hlt|].
    apply Forall_app; split; [exact H2|]. now apply bold_pass_one_line.
Qed.

(** C4, amended. The text is transformed line by line. On a line, a pair
    of bold markers around a text, where neither the text nor what stands
    before the opening marker holds two stars side by side or ends with a
    star, becomes the text between [<strong>] and [</strong>], and the rest
    of the line is searched for further pairs; a line that begins with a
    star and a space followed by at least one more character has the two
    replaced by a bullet and a space. In particular the text
    [Hello **world**], line feed, [* item one] becomes
    [Hello <strong>world</strong>], line feed, bullet, [ item one]. *)
Theorem formatMarkdown_markup :
  (forall l nl s,
      one_line l -> isLineTerminator nl = true ->
      formatMarkdown (l ++ nl :: s) = formatMarkdown l ++ nl :: formatMarkdown s)
  /\ (forall a t r,
         one_line (a ++ t ++ r) -> no_marker a -> no_marker t ->
         formatMarkdown (a ++ [star; star] ++ t ++ [star; star] ++ r)
         = (if startsWith a [star; space] then [bullet; space] ++ skipn 2 a else a)
           ++ lit "<strong>" ++ t ++ lit "</strong>" ++ bold_pass r)
  /\ (forall l,
         l <> [] -> one_line l ->
         formatMarkdown ([star; space] ++ l) = [bullet; space] ++ bold_pass l)
  /\ formatMarkdown (lit "Hello **world**" ++ [LF] ++ lit "* item one")
     = lit "Hello <strong>world</strong>" ++ [LF] ++ [bullet] ++ lit " item one".
Proof.
  split; [exact formatMarkdown_line|].
  split; [exact formatMarkdown_pair|].
  split; [exact formatMarkdown_item|].
  vm_compute. reflexivity.
Qed.

Lemma formatMarkdown_markup_witness :
  formatMarkdown (lit "ab" ++ LF :: lit "cd")
  = formatMarkdown (lit "ab") ++ LF :: formatMarkdown (lit "cd")
  /\ formatMarkdown (lit "a * " ++ [star; star] ++ lit "b" ++ [star; star] ++ lit " c")
     = lit "a * " ++ lit "<strong>" ++ lit "b" ++ lit "</strong>" ++ bold_pass (lit " c")
  /\ formatMarkdown ([star; space] ++ lit "item")
     = [bullet; space] ++ bold_pass (lit "item").
Proof.
  destruct formatMarkdown_markup as (Hline & Hpair & Hitem & _).
  split; [|split].
  - apply Hline; [repeat constructor | reflexivity].
  - apply (Hpair (lit "a * ") (lit "b") (lit " c"));
      [repeat constructor | reflexivity | reflexivity].
  - apply Hitem; [discriminate | repeat constructor].
Defined.

(** C4 as stated fails: a line that is a star and a space and nothing more
    begins with the bullet marker and is left as it is, and a pair of bold
    markers around a text that runs over a line feed is left as it is. *)
Lemma formatMarkdown_markup_counterexample :
  formatMarkdown [star; space] = [star; space]
  /\ formatMarkdown ([star; star] ++ lit "a" ++ [LF] ++ lit "b" ++ [star; star])
     = [star; star] ++ lit "a" ++ [LF] ++ lit "b" ++ [star; star].
Proof. split; vm_compute; reflexivity. Qed.

(** ** The handler and its result *)

Lemma handleTranslate_output (key : option jsstring) (gen : request -> reply) (w : World) :
  output (ui (handleTranslate key gen w))
  = shown (translate gen (input (ui w)) (selectedStyle (ui w)) key).
Proof.
  unfold handleTranslate, handleTranslate_begin, translate.
  destruct (str_falsy (input (ui w)) || str_falsy (selectedStyle (ui w)));
    [reflexivity|].
  destruct (opt_falsy key); [reflexivity|].
  cbn [setLoading setOutput ui input selectedStyle].
  destruct (gen _) as [text|error]; [reflexivity|].
  unfold handleTranslate_settle, handle_error, classify.
  repeat match goal with
         | |- context [if ?c then _ else _] => destruct c
         end; reflexivity.
Qed.

Lemma handleTranslate_sent (key : option jsstring) (gen : request -> reply) (w : World) :
  sent (handleTranslate key gen w)
  = sent w ++
    if str_falsy (input (ui w)) || str_falsy (selectedStyle (ui w)) then []
    else if opt_falsy key then []
    else [{| model := lit "gemini-1.5-flash";
             prompt := make_prompt (selectedStyle (ui w)) (input (ui w)) |}].
Proof.
  unfold handleTranslate, handleTranslate_begin.
  destruct (str_falsy (input (ui w)) || str_falsy (selectedStyle (ui w)));
    [cbn; now rewrite app_nil_r|].
  destruct (opt_falsy key); [cbn; now rewrite app_nil_r|].
  cbn [setLoading setOutput ui input selectedStyle].
  destruct (gen _) as [text|error]; [reflexivity|].
  unfold handleTranslate_settle, handle_error.
  repeat match goal with
         | |- context [if ?c then _ else _] => destruct c
         end; reflexivity.
Qed.

(** The component state a call leaves: the text of the result in [output],
    the loading flag down unless the call returned before any request. *)
Lemma handleTranslate_ui (key : option jsstring) (gen : request -> reply) (w : World) :
  ui (handleTranslate key gen w)
  = {| input := input (ui w);
       output := shown (translate gen (input (ui w)) (selectedStyle (ui w)) key);
       selectedStyle := selectedStyle (ui w);
       loading :=
         if str_falsy (input (ui w)) || str_falsy (selectedStyle (ui w))
            || opt_falsy key
         then loading (ui w) else false;
       theme := theme (ui w) |}.
Proof.
  unfold handleTranslate, handleTranslate_begin, translate.
  destruct (str_falsy (input (ui w)) || str_falsy (selectedStyle (ui w)));
    [reflexivity|].
  destruct (opt_falsy key); [reflexivity|].
  cbn [setLoading setOutput ui input selectedStyle orb].
  destruct (gen _) as [text|error]; [reflexivity|].
  unfold handleTranslate_settle, handle_error, classify.
  repeat match goal with
         | |- context [if ?c then _ else _] => destruct c
         end; reflexivity.
Qed.

Lemma opt_falsy_missing (key : option jsstring) :
  opt_falsy key = true <-> key = None \/ key = Some [].
Proof.
  destruct key as [[|c s]|]; cbn; split; intro H; auto; try discriminate.
  destruct H as [H|H]; discriminate.
Qed.

Lemma styles_not_empty (s : jsstring) : In s STYLES -> str_falsy s = false.
Proof.
  intro H. cbn in H.
  repeat (destruct H as [H|H]; [now subst s|]). contradiction.
Qed.

(** ** Validation *)

(** C1, amended. For every call in which the source text is the empty
    string or the style label is the empty string, the result is the
    validation failure whose message is the warning sign followed by
    [ Please enter text and select a style first.], and no request goes
    out to the generation service. *)
Theorem validation_failure (key : option jsstring) (gen : request -> reply) (w : World) :
  input (ui w) = [] \/ selectedStyle (ui w) = [] ->
  translate gen (input (ui w)) (selectedStyle (ui w)) key
  = Failure ValidationError
      ([9888; 65039]%N ++ lit " Please enter text and select a style first.")
  /\ output (ui (handleTranslate key gen w))
     = [9888; 65039]%N ++ lit " Please enter text and select a style first."
  /\ sent (handleTranslate key gen w) = sent w.
Proof.
  intro H.
  assert (E : str_falsy (input (ui w)) || str_falsy (selectedStyle (ui w)) = true).
  { destruct H as [H|H]; rewrite H; cbn; [reflexivity | apply orb_true_r]. }
  assert (T : translate gen (input (ui w)) (selectedStyle (ui w)) key
              = Failure ValidationError msg_enter_text).
  { unfold translate. now rewrite E. }
  split; [exact T|]. split.
  - now rewrite handleTranslate_output, T.
  - rewrite handleTranslate_sent, E. apply app_nil_r.
Qed.

Lemma validation_failure_witness :
  let w := world_of [] (lit "Pirate") in
  let key := Some (lit "secret") in
  let gen := stub_resolve (lit "Arr") in
  translate gen (input (ui w)) (selectedStyle (ui w)) key
  = Failure ValidationError
      ([9888; 65039]%N ++ lit " Please enter text and select a style first.")
  /\ output (ui (handleTranslate key gen w))
     = [9888; 65039]%N ++ lit " Please enter text and select a style first."
  /\ sent (handleTranslate key gen w) = sent w.
Proof.
  intros w key gen. apply (validation_failure key gen w). left. reflexivity.
Defined.

(** C1 as stated fails three ways: a blank text (one space) passes the
    validation and a request goes out; so does a style label that is not in
    the catalog; and the message of the validation failure is not the
    string [text and style required]. *)
Lemma validation_failure_counterexample :
  let key := Some (lit "secret") in
  let gen := stub_resolve (lit "Arr") in
  (translate gen [space] (lit "Pirate") key = Success (lit "Arr")
   /\ length (sent (handleTranslate key gen (world_of [space] (lit "Pirate")))) = 1)
  /\ (~ In (lit "Klingon") STYLES
      /\ translate gen (lit "notes") (lit "Klingon") key = Success (lit "Arr")
      /\ length (sent (handleTranslate key gen (world_of (lit "notes") (lit "Klingon")))) = 1)
  /\ (translate gen [] (lit "Pirate") key
      <> Failure ValidationError (lit "text and style required")
      /\ output (ui (handleTranslate key gen (world_of [] (lit "Pirate"))))
         = [9888; 65039]%N ++ lit " Please enter text and select a style first.").
Proof.
  intros key gen. split; [|split].
  - split; reflexivity.
  - split; [|split; reflexivity].
    cbn. intros H. repeat (destruct H as [H|H]; [discriminate H|]). exact H.
  - split; [discriminate | reflexivity].
Qed.

(** C3, amended. For every call with a non-empty source text and a style
    label of the catalog, if the credential is absent or empty the result
    is the configuration failure whose message is the cross mark followed
    by [ API key not found. Please check your .env file.], and no request
    goes out to the generation service. *)
Theorem missing_credential_failure (key : option jsstring) (gen : request -> reply)
    (w : World) :
  input (ui w) <> [] ->
  In (selectedStyle (ui w)) STYLES ->
  key = None \/ key = Some [] ->
  translate gen (input (ui w)) (selectedStyle (ui w)) key
  = Failure ConfigurationError
      ([10060]%N ++ lit " API key not found. Please check your .env file.")
  /\ output (ui (handleTranslate key gen w))
     = [10060]%N ++ lit " API key not found. Please check your .env file."
  /\ sent (handleTranslate key gen w) = sent w.
Proof.
  intros Hin Hst Hkey.
  assert (E1 : str_falsy (input (ui w)) = false)
    by (destruct (input (ui w)); [contradiction | reflexivity]).
  pose proof (styles_not_empty _ Hst) as E2.
  apply opt_falsy_missing in Hkey.
  assert (T : translate gen (input (ui w)) (selectedStyle (ui w)) key
              = Failure ConfigurationError msg_no_key).
  { unfold translate. now rewrite E1, E2, Hkey. }
  split; [exact T|]. split.
  - now rewrite handleTranslate_output, T.
  - rewrite handleTranslate_sent, E1, E2, Hkey. apply app_nil_r.
Qed.

Lemma missing_credential_failure_witness :
  let w := world_of (lit "notes") (lit "Pirate") in
  let gen := stub_resolve (lit "Arr") in
  translate gen (input (ui w)) (selectedStyle (ui w)) (Some [])
  = Failure ConfigurationError
      ([10060]%N ++ lit " API key not found. Please check your .env file.")
  /\ output (ui (handleTranslate (Some []) gen w))
     = [10060]%N ++ lit " API key not found. Please check your .env file."
  /\ sent (handleTranslate (Some []) gen w) = sent w.
Proof.
  intros w gen. apply (missing_credential_failure (Some []) gen w).
  - discriminate.
  - cbn. do 4 right. left. reflexivity.
  - right. reflexivity.
Defined.

(** C3 as stated fails on the message: with notes, the style [Pirate] and
    an empty credential the result is a configuration failure, and its
    message is not the string [missing credential]. *)
Lemma missing_credential_failure_counterexample :
  translate (stub_resolve (lit "Arr")) (lit "notes") (lit "Pirate") (Some [])
  = Failure ConfigurationError
      ([10060]%N ++ lit " API key not found. Please check your .env file.")
  /\ translate (stub_resolve (lit "Arr")) (lit "notes") (lit "Pirate") (Some [])
     <> Failure ConfigurationError (lit "missing credential")
  /\ output (ui (handleTranslate (Some []) (stub_resolve (lit "Arr"))
                   (world_of (lit "notes") (lit "Pirate"))))
     = [10060]%N ++ lit " API key not found. Please check your .env file.".
Proof. split; [reflexivity|]. split; [discriminate | reflexivity]. Qed.

(** C8. Input validation comes before the check of the credential: for
    every call in which the source text or the style label is missing and
    the credential is absent or empty as well, the result is a validation
    failure and not a configuration failure. *)
Theorem validation_before_credential (key : option jsstring) (gen : request -> reply)
    (w : World) :
  input (ui w) = [] \/ selectedStyle (ui w) = [] ->
  key = None \/ key = Some [] ->
  (exists m,
      translate gen (input (ui w)) (selectedStyle (ui w)) key
      = Failure ValidationError m
      /\ output (ui (handleTranslate key gen w)) = m)
  /\ (forall m,
         translate gen (input (ui w)) (selectedStyle (ui w)) key
         <> Failure ConfigurationError m).
Proof.
  intros H _.
  assert (T : translate gen (input (ui w)) (selectedStyle (ui w)) key
              = Failure ValidationError msg_enter_text).
  { unfold translate.
    destruct H as [-> | ->]; cbn [str_falsy orb]; [reflexivity|].
    now rewrite orb_true_r. }
  split.
  - exists msg_enter_text. split; [exact T|].
    now rewrite handleTranslate_output, T.
  - intro m. rewrite T. discriminate.
Qed.

Lemma validation_before_credential_witness :
  let w := world_of [] (lit "Pirate") in
  let gen := stub_resolve (lit "Arr") in
  (exists m,
      translate gen (input (ui w)) (selectedStyle (ui w)) None
      = Failure ValidationError m
      /\ output (ui (handleTranslate None gen w)) = m)
  /\ (forall m,
         translate gen (input (ui w)) (selectedStyle (ui w)) None
         <> Failure ConfigurationError m).
Proof.
  intros w gen. apply (validation_before_credential None gen w).
  - left. reflexivity.
  - left. reflexivity.
Defined.

(** ** Classification of errors *)

Lemma translate_rejected (key : option jsstring) (error : JsError)
    (text style : jsstring) :
  text <> [] -> style <> [] -> opt_falsy key = false ->
  translate (stub_reject error) text style key = classify error.
Proof.
  intros Ht Hs Hk. unfold translate.
  destruct text; [contradiction|]. destruct style; [contradiction|].
  cbn [str_falsy orb]. now rewrite Hk.
Qed.

(** C2, amended. For every error the generation service surfaces, the
    rules apply in order and the first that matches wins: a message that
    includes [API_KEY_INVALID] or [API key] gives an authentication
    failure; otherwise one that includes [quota] or [limit] gives a quota
    failure; otherwise one that includes [SAFETY] or [blocked] gives a
    content policy failure; otherwise the failure is unknown and its
    message is the cross mark and [ An error occurred: ] followed by the
    original message unchanged ([undefined] when the error has none). The
    message of the failure is what the handler leaves in [output]. *)
Theorem classification_order (key : option jsstring) (error : JsError) (w : World) :
  input (ui w) <> [] -> selectedStyle (ui w) <> [] -> opt_falsy key = false ->
  let result :=
    translate (stub_reject error) (input (ui w)) (selectedStyle (ui w)) key in
  (mentions error "API_KEY_INVALID" || mentions error "API key" = true ->
   result = Failure AuthError
              ([10060]%N ++ lit " Invalid API key. Please check your environment variables."))
  /\ (mentions error "API_KEY_INVALID" || mentions error "API key" = false ->
      mentions error "quota" || mentions error "limit" = true ->
      result = Failure QuotaError
                 ([10060]%N ++ lit " API quota exceeded. Please try again later."))
  /\ (mentions error "API_KEY_INVALID" || mentions error "API key" = false ->
      mentions error "quota" || mentions error "limit" = false ->
      mentions error "SAFETY" || mentions error "blocked" = true ->
      result = Failure ContentPolicyError
                 ([10060]%N ++
                  lit " The response was blocked due to safety settings. Please try a different input."))
  /\ (mentions error "API_KEY_INVALID" || mentions error "API key" = false ->
      mentions error "quota" || mentions error "limit" = false ->
      mentions error "SAFETY" || mentions error "blocked" = false ->
      (forall m, message error = Some m ->
         result = Failure UnknownError ([10060]%N ++ lit " An error occurred: " ++ m))
      /\ (message error = None ->
          result = Failure UnknownError
                     ([10060]%N ++ lit " An error occurred: " ++ lit "undefined")))
  /\ output (ui (handleTranslate key (stub_reject error) w)) = shown result.
Proof.
  intros Ht Hs Hk result.
  split; [|split; [|split; [|split]]]; [| | | |apply handleTranslate_output];
    subst result;
    rewrite (translate_rejected key error _ _ Ht Hs Hk); unfold classify.
  - intros E1. now rewrite E1.
  - intros E1 E2. now rewrite E1, E2.
  - intros E1 E2 E3. now rewrite E1, E2, E3.
  - intros E1 E2 E3. rewrite E1, E2, E3. split.
    + intros m Em. now rewrite Em.
    + intros Em. now rewrite Em.
Qed.

Lemma classification_order_witness :
  let w := world_of (lit "notes") (lit "Pirate") in
  let key := Some (lit "secret") in
  translate (stub_reject {| message := Some (lit "quota: API key missing") |})
    (input (ui w)) (selectedStyle (ui w)) key
  = Failure AuthError
      ([10060]%N ++ lit " Invalid API key. Please check your environment variables.")
  /\ translate (stub_reject {| message := Some (lit "network down") |})
       (input (ui w)) (selectedStyle (ui w)) key
     = Failure UnknownError ([10060]%N ++ lit " An error occurred: " ++ lit "network down").
Proof.
  intros w key. split.
  - apply (classification_order key
             {| message := Some (lit "quota: API key missing") |} w);
      try discriminate; reflexivity.
  - apply (classification_order key
             {| message := Some (lit "network down") |} w);
      try discriminate; reflexivity.
Defined.

(** C2 as stated fails on the last rule: for an error whose message is
    [network down] no rule matches, and the message of the unknown failure
    is not the original message but that message after a fixed prefix. *)
Lemma classification_order_counterexample :
  let error := {| message := Some (lit "network down") |} in
  mentions error "API_KEY_INVALID" || mentions error "API key"
  || mentions error "quota" || mentions error "limit"
  || mentions error "SAFETY" || mentions error "blocked" = false
  /\ translate (stub_reject error) (lit "notes") (lit "Pirate") (Some (lit "secret"))
     = Failure UnknownError ([10060]%N ++ lit " An error occurred: network down")
  /\ translate (stub_reject error) (lit "notes") (lit "Pirate") (Some (lit "secret"))
     <> Failure UnknownError (lit "network down")
  /\ output (ui (handleTranslate (Some (lit "secret")) (stub_reject error)
                   (world_of (lit "notes") (lit "Pirate"))))
     = [10060]%N ++ lit " An error occurred: network down".
Proof.
  intros error. split; [reflexivity|]. split; [reflexivity|].
  split; [discriminate | reflexivity].
Qed.

(** ** What is displayed *)

Lemma output_card_result (key : option jsstring) (gen : request -> reply) (w : World) :
  let result := translate gen (input (ui w)) (selectedStyle (ui w)) key in
  output_card (ui (handleTranslate key gen w))
  = if str_falsy (shown result) then None else Some (formatMarkdown (shown result)).
Proof.
  intro result. unfold output_card. now rewrite handleTranslate_output.
Qed.

Lemma has_no_star (s : jsstring) : existsb (N.eqb star) s = false -> ~ In star s.
Proof.
  intros H Hin.
  assert (E : existsb (N.eqb star) s = true).
  { apply existsb_exists. exists star. split; [exact Hin | apply N.eqb_refl]. }
  congruence.
Qed.

Lemma fixed_messages_no_star :
  ~ In star msg_enter_text /\ ~ In star msg_no_key /\ ~ In star msg_invalid_key
  /\ ~ In star msg_quota /\ ~ In star msg_blocked.
Proof. repeat split; apply has_no_star; reflexivity. Qed.

Lemma failure_message_fixed (gen : request -> reply) (text style : jsstring)
    (key : option jsstring) (c : ErrorCategory) (m : jsstring) :
  translate gen text style key = Failure c m ->
  m <> [] /\ (c <> UnknownError -> ~ In star m).
Proof.
  destruct fixed_messages_no_star as (H1 & H2 & H3 & H4 & H5).
  unfold translate, classify.
  repeat match goal with
         | |- context [if ?b then _ else _] => destruct b
         | |- context [match gen ?q with _ => _ end] => destruct (gen q)
         end;
    intro E; try discriminate E; injection E as <- <-;
    (split; [discriminate | intro Hc; try assumption; now contradiction Hc]).
Qed.

(** C5, amended. The transformation is applied to whatever text the result
    holds, the message of a failure like the text of a success. For every
    failure whose message holds no asterisk, what is displayed is exactly
    the message; that is so for every validation, configuration,
    authentication, quota and content policy failure, whose messages are
    fixed. *)
Theorem failure_display (key : option jsstring) (gen : request -> reply) (w : World)
    (c : ErrorCategory) (m : jsstring) :
  translate gen (input (ui w)) (selectedStyle (ui w)) key = Failure c m ->
  output_card (ui (handleTranslate key gen w)) = Some (formatMarkdown m)
  /\ (c <> UnknownError \/ ~ In star m ->
      output_card (ui (handleTranslate key gen w)) = Some m).
Proof.
  intro T. destruct (failure_message_fixed _ _ _ _ _ _ T) as [Hne Hfix].
  assert (E : output_card (ui (handleTranslate key gen w)) = Some (formatMarkdown m)).
  { rewrite output_card_result, T. cbn [shown].
    destruct m; [contradiction | reflexivity]. }
  split; [exact E|].
  intro H. rewrite E. f_equal.
  assert (Hm : ~ In star m) by (destruct H as [H|H]; [now apply Hfix | exact H]).
  unfold formatMarkdown, replace_all.
  rewrite (bold_no_star m None Hm). now apply bullet_no_star.
Qed.

Lemma failure_display_witness :
  let w := world_of (lit "notes") (lit "Pirate") in
  let gen := stub_reject {| message := Some (lit "quota") |} in
  let key := Some (lit "secret") in
  output_card (ui (handleTranslate key gen w))
  = Some ([10060]%N ++ lit " API quota exceeded. Please try again later.").
Proof.
  intros w gen key.
  apply (failure_display key gen w QuotaError
           ([10060]%N ++ lit " API quota exceeded. Please try again later.")).
  - reflexivity.
  - left. discriminate.
Defined.

(** C5 as stated fails: when the generation service rejects with the
    message [**boom**], the result is an unknown failure whose message
    ends in [**boom**], and what is displayed ends in
    [<strong>boom</strong>]. *)
Lemma failure_display_counterexample :
  let w := world_of (lit "notes") (lit "Pirate") in
  let gen := stub_reject {| message := Some (lit "**boom**") |} in
  let key := Some (lit "secret") in
  translate gen (input (ui w)) (selectedStyle (ui w)) key
  = Failure UnknownError ([10060]%N ++ lit " An error occurred: **boom**")
  /\ output_card (ui (handleTranslate key gen w))
     = Some ([10060]%N ++ lit " An error occurred: <strong>boom</strong>")
  /\ output_card (ui (handleTranslate key gen w))
     <> Some ([10060]%N ++ lit " An error occurred: **boom**").
Proof.
  intros w gen key. split; [reflexivity|]. split; [vm_compute; reflexivity|].
  vm_compute. discriminate.
Qed.

(** ** The prompt *)

(** C6. For every non-empty source text and chosen style label, the prompt
    sent to the generation service is exactly
    [Rewrite the following meeting notes in ], the style label, [ style:],
    two line feeds and the source text as it is; a call sends this one
    request when there is a credential and none when there is not. *)
Theorem prompt_sent (key : option jsstring) (gen : request -> reply) (w : World) :
  input (ui w) <> [] ->
  selectedStyle (ui w) <> [] ->
  sent (handleTranslate key gen w)
  = sent w ++
    match key with
    | None | Some [] => []
    | Some (_ :: _) =>
        [{| model := lit "gemini-1.5-flash";
            prompt := lit "Rewrite the following meeting notes in "
                        ++ selectedStyle (ui w) ++ lit " style:" ++ [LF; LF]
                        ++ input (ui w) |}]
    end.
Proof.
  intros Hin Hst. rewrite handleTranslate_sent.
  destruct (input (ui w)) as [|c text]; [contradiction|].
  destruct (selectedStyle (ui w)) as [|d style]; [contradiction|].
  cbn [str_falsy orb].
  destruct key as [[|k key]|]; reflexivity.
Qed.

Lemma prompt_sent_witness :
  sent (handleTranslate (Some (lit "secret")) (stub_resolve (lit "Arr"))
          (world_of (lit "<b>1 & 2</b>") (lit "Pirate")))
  = [{| model := lit "gemini-1.5-flash";
        prompt := lit "Rewrite the following meeting notes in Pirate style:"
                    ++ [LF; LF] ++ lit "<b>1 & 2</b>" |}].
Proof.
  apply (prompt_sent (Some (lit "secret")) (stub_resolve (lit "Arr"))
           (world_of (lit "<b>1 & 2</b>") (lit "Pirate"))); discriminate.
Defined.

(** ** No state is carried from one call to the next *)

(** C7. Calling the handler twice with the same source text, style label
    and credential against a stub that answers by the request alone gives
    the same result both times: the result of a call is that of
    [translate] on these inputs, whatever the state before the call, and
    the second call leaves the component state as the first left it. *)
Theorem translate_twice (key : option jsstring) (gen : request -> reply) (w : World) :
  let w1 := handleTranslate key gen w in
  let w2 := handleTranslate key gen w1 in
  output (ui w1) = shown (translate gen (input (ui w)) (selectedStyle (ui w)) key)
  /\ translate gen (input (ui w1)) (selectedStyle (ui w1)) key
     = translate gen (input (ui w)) (selectedStyle (ui w)) key
  /\ output (ui w2) = output (ui w1)
  /\ ui w2 = ui w1.
Proof.
  intros w1 w2.
  pose proof (handleTranslate_ui key gen w) as E1. fold w1 in E1.
  pose proof (handleTranslate_ui key gen w1) as E2. fold w2 in E2.
  assert (Ei : input (ui w1) = input (ui w)) by now rewrite E1.
  assert (Es : selectedStyle (ui w1) = selectedStyle (ui w)) by now rewrite E1.
  rewrite Ei, Es in E2.
  split; [now rewrite E1|].
  split; [now rewrite Ei, Es|].
  split; [now rewrite E2, E1|].
  rewrite E2, E1. cbn [input output selectedStyle loading theme].
  now destruct (str_falsy (input (ui w)) || str_falsy (selectedStyle (ui w))
                || opt_falsy key).
Qed.

(** ** The loading flag *)

Lemma settle_clears_loading (r : reply) (w : World) :
  loading (ui (handleTranslate_settle r w)) = false.
Proof. reflexivity. Qed.

Lemma begin_returned_loading (key : option jsstring) (w w' : World) :
  handleTranslate_begin key w = Returned w' ->
  loading (ui w') = loading (ui w).
Proof.
  unfold handleTranslate_begin.
  destruct (str_falsy (input (ui w)) || str_falsy (selectedStyle (ui w)));
    [intros [= <-]; reflexivity|].
  destruct (opt_falsy key); [intros [= <-]; reflexivity | discriminate].
Qed.

Lemma begin_awaiting_loading (key : option jsstring) (w w' : World) (q : request) :
  handleTranslate_begin key w = Awaiting q w' ->
  loading (ui w') = true.
Proof.
  unfold handleTranslate_begin.
  destruct (str_falsy (input (ui w)) || str_falsy (selectedStyle (ui w)));
    [discriminate|].
  destruct (opt_falsy key); [discriminate | intros [= _ <-]; reflexivity].
Qed.

Lemma page0_ok : page_ok page0.
Proof. split; [reflexivity | cbn; lia]. Qed.

Lemma step_ok (key : option jsstring) (p : Page) (e : event) :
  page_ok p -> page_ok (step key p e).
Proof.
  intros [Hl Hw]. destruct e as [text|style| | |r]; cbn [step].
  - split; assumption.
  - destruct (existsb (str_eqb style) STYLES); split; assumption.
  - split; assumption.
  - destruct (button_disabled (ui (world p))) eqn:Hd; [split; assumption|].
    unfold button_disabled in Hd.
    destruct (loading (ui (world p))) eqn:El; [discriminate Hd|].
    assert (Hnone : waiting p = []).
    { destruct (waiting p); [reflexivity | discriminate Hl]. }
    destruct (handleTranslate_begin key (world p)) as [w'|q w'] eqn:Eb.
    + split; cbn [world waiting].
      * rewrite (begin_returned_loading key (world p) w' Eb), El.
        now rewrite Hnone.
      * exact Hw.
    + split; cbn [world waiting].
      * rewrite (begin_awaiting_loading key (world p) w' q Eb). now rewrite Hnone.
      * rewrite Hnone. cbn. lia.
  - destruct (waiting p) as [|q rest_waiting] eqn:Ew.
    { split; [now rewrite Ew | rewrite Ew; exact Hw]. }
    cbn [length] in Hw.
    assert (rest_waiting = []) as -> by (destruct rest_waiting; [reflexivity | cbn in Hw; lia]).
    split; [reflexivity | cbn; lia].
Qed.

Lemma run_events_ok (key : option jsstring) (es : list event) (p : Page) :
  page_ok p -> page_ok (run_events key es p).
Proof.
  revert p. induction es as [|e es IH]; intros p Hp; [exact Hp|].
  cbn [run_events fold_left]. apply IH. now apply step_ok.
Qed.

(** C10. After every completed invocation of the handler the loading flag
    is false: whatever way the generation call settles, with a text or
    with any error, the handler ends by putting the flag down; and in every
    state the page can reach, an event that ends a call of the handler (a
    click whose call returns before any request, or the settling of the
    request in flight) leaves the flag down and no call waiting. *)
Theorem loading_cleared :
  (forall (r : reply) (w : World), loading (ui (handleTranslate_settle r w)) = false)
  /\ (forall (key : option jsstring) (es : list event) (e : event),
         let p := run_events key es page0 in
         completes key p e = true ->
         loading (ui (world (step key p e))) = false
         /\ waiting (step key p e) = []).
Proof.
  split; [exact settle_clears_loading|].
  intros key es e p Hc.
  assert (Hp : page_ok p) by (apply run_events_ok, page0_ok).
  pose proof (step_ok key p e Hp) as [Hl' Hw'].
  destruct Hp as [Hl Hw].
  destruct e as [text|style| | |r]; cbn [completes] in Hc; try discriminate Hc.
  - apply andb_prop in Hc. destruct Hc as [Hd Hb].
    apply negb_true_iff in Hd.
    cbn [step]. rewrite Hd.
    destruct (handleTranslate_begin key (world p)) as [w'|q w'] eqn:Eb;
      [|discriminate Hb].
    unfold button_disabled in Hd.
    destruct (loading (ui (world p))) eqn:El; [discriminate Hd|].
    cbn [world waiting].
    rewrite (begin_returned_loading key (world p) w' Eb), El.
    split; [reflexivity|].
    destruct (waiting p); [reflexivity | discriminate Hl].
  - cbn [step] in *. destruct (waiting p) as [|q rest_waiting]; [discriminate Hc|].
    cbn [world waiting] in *. split; [reflexivity|].
    destruct rest_waiting; [reflexivity | cbn in Hw; lia].
Qed.

Lemma loading_cleared_witness :
  let key := Some (lit "secret") in
  let es := [Typed (lit "notes"); Picked (lit "Pirate"); Clicked] in
  let e := Settled (Rejected {| message := Some (lit "network down") |}) in
  loading (ui (world (run_events key es page0))) = true
  /\ loading (ui (world (step key (run_events key es page0) e))) = false
  /\ waiting (step key (run_events key es page0) e) = [].
Proof.
  intros key es e. split; [reflexivity|].
  apply (proj2 loading_cleared key es e). reflexivity.
Defined.

(* ================================================================== *)
(** * Further properties of the code *)

(** ** Substring tests *)

Lemma startsWith_iff (s p : jsstring) :
  startsWith s p = true <-> exists r, s = p ++ r.
Proof.
  revert s. induction p as [|x p IH]; intro s; cbn [startsWith].
  - split; [intros _; now exists s | reflexivity].
  - destruct s as [|c s].
    + split; [discriminate | intros [r Hr]; discriminate Hr].
    + rewrite andb_true_iff, N.eqb_eq, IH. split.
      * intros [-> [r ->]]. now exists r.
      * intros [r Hr]. injection Hr as -> ->. split; [reflexivity | now exists r].
Qed.

Lemma includes_iff (s needle : jsstring) :
  includes s needle = true <-> exists a b, s = a ++ needle ++ b.
Proof.
  induction s as [|c s IH]; cbn [includes]; rewrite orb_true_iff, startsWith_iff.
  - split.
    + intros [[r Hr] | H]; [|discriminate H]. now exists [], r.
    + intros (a & b & H). left. destruct a as [|x a]; [|discriminate H].
      now exists b.
  - rewrite IH. split.
    + intros [[r Hr] | (a & b & ->)]; [now exists [], r|].
      now exists (c :: a), b.
    + intros (a & b & H). destruct a as [|x a].
      * left. now exists b.
      * right. injection H as -> ->. now exists a, b.
Qed.

Lemma includes_wrapped (a b m needle : jsstring) :
  includes m needle = true -> includes (a ++ m ++ b) needle = true.
Proof.
  rewrite !includes_iff. intros (x & y & ->).
  exists (a ++ x), (y ++ b). now rewrite <- !app_assoc.
Qed.

(** X1. A marker is found in an error exactly when the error has a message
    in which the characters of the marker stand side by side, in the same
    case, anywhere. *)
Theorem mentions_substring (error : JsError) (needle : string) :
  mentions error needle = true
  <-> exists m a b, message error = Some m /\ m = a ++ lit needle ++ b.
Proof.
  unfold mentions, opt_includes. destruct (message error) as [m|].
  - rewrite includes_iff. split.
    + intros (a & b & ->). now exists (a ++ lit needle ++ b), a, b.
    + intros (m' & a & b & [= <-] & ->). now exists a, b.
  - split; [discriminate | intros (m & a & b & H & _); discriminate H].
Qed.

Lemma mentions_substring_witness :
  mentions {| message := Some (lit "Daily limit reached") |} "limit" = true
  /\ mentions {| message := Some (lit "Daily Limit reached") |} "limit" = false.
Proof.
  split; [|reflexivity].
  apply (proj2 (mentions_substring
                  {| message := Some (lit "Daily limit reached") |} "limit")).
  exists (lit "Daily limit reached"), (lit "Daily "), (lit " reached").
  split; reflexivity.
Defined.

(** ** Classification under wrapping *)

Lemma mentions_wrapped (a b : jsstring) (error : JsError) (needle : string) :
  mentions error needle = true -> mentions (wrap_error a b error) needle = true.
Proof.
  unfold mentions, wrap_error, opt_includes. cbn [message].
  destruct (message error) as [m|]; [|discriminate].
  apply includes_wrapped.
Qed.

(** X2. Putting text before and after the message of an error never makes
    the classification fall back: an error classified as an authentication
    failure stays one, and an error that matched any rule still matches a
    rule. *)
Theorem classification_wrapped (a b : jsstring) (error : JsError) :
  (category_of (classify error) = Some AuthError ->
   category_of (classify (wrap_error a b error)) = Some AuthError)
  /\ (category_of (classify error) <> Some UnknownError ->
      category_of (classify (wrap_error a b error)) <> Some UnknownError).
Proof.
  pose proof (mentions_wrapped a b error) as W.
  unfold classify. split.
  - destruct (mentions error "API_KEY_INVALID") eqn:E1.
    { intros _. now rewrite (W _ E1). }
    destruct (mentions error "API key") eqn:E2.
    { intros _. rewrite (W _ E2). now rewrite orb_true_r. }
    cbn [orb].
    destruct (mentions error "quota" || mentions error "limit");
      [intro H; discriminate H|].
    destruct (mentions error "SAFETY" || mentions error "blocked");
      intro H; discriminate H.
  - assert (Hnot : forall (c1 c2 c3 : bool) (x : jsstring),
               c1 || c2 || c3 = true ->
               category_of
                 (if c1 then Failure AuthError msg_invalid_key
                  else if c2 then Failure QuotaError msg_quota
                  else if c3 then Failure ContentPolicyError msg_blocked
                  else Failure UnknownError x) <> Some UnknownError).
    { intros [] [] [] x H; cbn in *; congruence. }
    intro H. apply Hnot.
    destruct (mentions error "API_KEY_INVALID") eqn:E1; [now rewrite (W _ E1)|].
    destruct (mentions error "API key") eqn:E2;
      [rewrite (W _ E2); now rewrite orb_true_r|].
    destruct (mentions error "quota") eqn:E3;
      [rewrite (W _ E3); now rewrite orb_true_r|].
    destruct (mentions error "limit") eqn:E4;
      [rewrite (W _ E4); now rewrite !orb_true_r|].
    destruct (mentions error "SAFETY") eqn:E5;
      [rewrite (W _ E5); now rewrite orb_true_r|].
    destruct (mentions error "blocked") eqn:E6;
      [rewrite (W _ E6); now rewrite !orb_true_r|].
    exfalso. apply H. reflexivity.
Qed.

Lemma classification_wrapped_witness :
  let error := {| message := Some (lit "quota") |} in
  category_of (classify (wrap_error (lit "[Error]: ") (lit " (429)") error))
  <> Some UnknownError.
Proof.
  intro error.
  apply (proj2 (classification_wrapped (lit "[Error]: ") (lit " (429)") error)).
  discriminate.
Defined.

(** ** A whole call of the handler *)

Lemma begin_awaiting (key : option jsstring) (w : World) :
  input (ui w) <> [] -> selectedStyle (ui w) <> [] -> opt_falsy key = false ->
  handleTranslate_begin key w
  = Awaiting {| model := lit "gemini-1.5-flash";
                prompt := make_prompt (selectedStyle (ui w)) (input (ui w)) |}
      (generateContent
         {| model := lit "gemini-1.5-flash";
            prompt := make_prompt (selectedStyle (ui w)) (input (ui w)) |}
         (setOutput [] (setLoading true w))).
Proof.
  intros Hi Hs Hk. unfold handleTranslate_begin.
  destruct (input (ui w)) eqn:Ei; [contradiction|].
  destruct (selectedStyle (ui w)) eqn:Es; [contradiction|].
  cbn [str_falsy orb]. rewrite Hk. cbn [setLoading setOutput ui input selectedStyle].
  now rewrite Ei, Es.
Qed.

(** X3. When the generation service answers with a text, the handler keeps
    that text as it is, writes it to the console and puts the loading flag
    down; the output card then shows the formatted text, and shows nothing
    at all, not even a message, when the text is empty. *)
Theorem response_stored (key : option jsstring) (text : jsstring) (w : World) :
  input (ui w) <> [] -> selectedStyle (ui w) <> [] -> opt_falsy key = false ->
  let w' := handleTranslate key (stub_resolve text) w in
  output (ui w') = text
  /\ loading (ui w') = false
  /\ console w' = console w ++ [ConsoleLog text]
  /\ output_card (ui w')
     = match text with
       | [] => None
       | _ :: _ => Some (formatMarkdown text)
       end.
Proof.
  intros Hi Hs Hk w'. unfold w', handleTranslate.
  rewrite (begin_awaiting key w Hi Hs Hk).
  unfold handleTranslate_settle, stub_resolve, output_card.
  cbn [setLoading setOutput console_write generateContent ui output loading console].
  repeat split. now destruct text.
Qed.

Lemma response_stored_witness :
  let w := world_of (lit "notes") (lit "Yoda") in
  let w' := handleTranslate (Some (lit "secret")) (stub_resolve []) w in
  output (ui w') = []
  /\ loading (ui w') = false
  /\ console w' = console w ++ [ConsoleLog []]
  /\ output_card (ui w') = None.
Proof.
  intro w.
  apply (response_stored (Some (lit "secret")) [] w); [discriminate | discriminate | reflexivity].
Defined.

(** X4. Nothing is escaped on the way to the page: a non-empty answer of
    the generation service that holds no asterisk reaches the markup of the
    output card exactly as it was received, whatever else it holds. *)
Theorem response_unescaped (key : option jsstring) (text : jsstring) (w : World) :
  input (ui w) <> [] -> selectedStyle (ui w) <> [] -> opt_falsy key = false ->
  text <> [] -> ~ In star text ->
  output_card (ui (handleTranslate key (stub_resolve text) w)) = Some text.
Proof.
  intros Hi Hs Hk Ht Hstar. unfold handleTranslate.
  rewrite (begin_awaiting key w Hi Hs Hk).
  unfold handleTranslate_settle, stub_resolve, output_card.
  cbn [setLoading setOutput console_write generateContent ui output].
  destruct text as [|c text]; [contradiction|]. cbn [str_falsy].
  f_equal. unfold formatMarkdown, replace_all.
  rewrite (bold_no_star _ None Hstar). now apply bullet_no_star.
Qed.

Lemma response_unescaped_witness :
  output_card
    (ui (handleTranslate (Some (lit "secret"))
           (stub_resolve (lit "<img src=x onerror=alert(1)>"))
           (world_of (lit "notes") (lit "Yoda"))))
  = Some (lit "<img src=x onerror=alert(1)>").
Proof.
  apply (response_unescaped (Some (lit "secret"))
           (lit "<img src=x onerror=alert(1)>")
           (world_of (lit "notes") (lit "Yoda")));
    try discriminate; [reflexivity|].
  apply has_no_star. reflexivity.
Defined.

(** X5. A call of the handler never changes the notes, the selected style
    or the theme, and never takes anything back from the requests sent or
    from the console: it adds at most one request, and exactly as many
    console lines as requests. *)
Theorem handleTranslate_frame (key : option jsstring) (gen : request -> reply)
    (w : World) :
  let w' := handleTranslate key gen w in
  input (ui w') = input (ui w)
  /\ selectedStyle (ui w') = selectedStyle (ui w)
  /\ theme (ui w') = theme (ui w)
  /\ exists qs ls,
       sent w' = sent w ++ qs
       /\ console w' = console w ++ ls
       /\ length qs = length ls
       /\ length qs <= 1.
Proof.
  intro w'. unfold w', handleTranslate, handleTranslate_begin.
  destruct (str_falsy (input (ui w)) || str_falsy (selectedStyle (ui w))).
  { repeat split. exists [], []. cbn. rewrite !app_nil_r. auto. }
  destruct (opt_falsy key).
  { repeat split. exists [], []. cbn. rewrite !app_nil_r. auto. }
  cbn [setLoading setOutput ui input selectedStyle].
  destruct (gen _) as [text|error].
  - repeat split. eexists [_], [_]. cbn. auto.
  - unfold handleTranslate_settle, handle_error.
    repeat match goal with
           | |- context [if ?c then _ else _] => destruct c
           end;
      (repeat split; eexists [_], [_]; cbn; auto).
Qed.

(** X6. Whatever class an error falls in, the handler writes the error
    itself, as it was thrown, to the console under the label [API Error:],
    once, and puts the loading flag down. *)
Theorem error_logged (key : option jsstring) (error : JsError) (w : World) :
  input (ui w) <> [] -> selectedStyle (ui w) <> [] -> opt_falsy key = false ->
  let w' := handleTranslate key (stub_reject error) w in
  console w' = console w ++ [ConsoleError (lit "API Error:") error]
  /\ loading (ui w') = false
  /\ output (ui w') <> [].
Proof.
  intros Hi Hs Hk w'. unfold w', handleTranslate.
  rewrite (begin_awaiting key w Hi Hs Hk).
  unfold handleTranslate_settle, stub_reject, handle_error.
  repeat match goal with
         | |- context [if ?c then _ else _] => destruct c
         end; (split; [reflexivity | split; [reflexivity | discriminate]]).
Qed.

Lemma error_logged_witness :
  let w := world_of (lit "notes") (lit "Yoda") in
  let error := {| message := None |} in
  let w' := handleTranslate (Some (lit "secret")) (stub_reject error) w in
  console w' = console w ++ [ConsoleError (lit "API Error:") error]
  /\ loading (ui w') = false
  /\ output (ui w') <> [].
Proof.
  intros w error.
  apply (error_logged (Some (lit "secret")) error w);
    [discriminate | discriminate | reflexivity].
Defined.

(** X7. The button guards the handler with the handler's own test: a click
    that the button lets through never ends in a validation failure,
    whatever the credential and the generation service. *)
Theorem button_guards_validation (a : AppState) (gen : request -> reply)
    (key : option jsstring) :
  button_disabled a = false ->
  forall m, translate gen (input a) (selectedStyle a) key <> Failure ValidationError m.
Proof.
  unfold button_disabled. intros H m.
  apply orb_false_elim in H. destruct H as [H Hs].
  apply orb_false_elim in H. destruct H as [_ Hi].
  unfold translate, classify. rewrite Hi, Hs. cbn [orb].
  repeat match goal with
         | |- context [if ?c then _ else _] => destruct c
         | |- context [match gen ?q with _ => _ end] => destruct (gen q)
         end; discriminate.
Qed.

Lemma button_guards_validation_witness :
  button_disabled (ui (world_of (lit "notes") (lit "Pirate"))) = false
  /\ translate (stub_resolve (lit "Arr")) (lit "notes") (lit "Pirate") None
     <> Failure ValidationError msg_enter_text.
Proof.
  split; [reflexivity|].
  apply (button_guards_validation (ui (world_of (lit "notes") (lit "Pirate")))
           (stub_resolve (lit "Arr")) None).
  reflexivity.
Defined.

(** ** The pages the events lead to *)

Lemma str_eqb_eq (a b : jsstring) : str_eqb a b = true <-> a = b.
Proof.
  revert b. induction a as [|x a IH]; intros [|y b]; cbn [str_eqb];
    try (split; [discriminate | intro H; discriminate H]).
  - split; reflexivity.
  - rewrite andb_true_iff, N.eqb_eq, IH. split.
    + now intros [-> ->].
    + intros [= -> ->]. now split.
Qed.

Lemma picked_in_catalog (style : jsstring) :
  existsb (str_eqb style) STYLES = true -> In style STYLES.
Proof.
  intro H. apply existsb_exists in H. destruct H as (x & Hx & E).
  apply str_eqb_eq in E. now subst x.
Qed.

Lemma begin_returned (key : option jsstring) (w w' : World) :
  handleTranslate_begin key w = Returned w' ->
  sent w' = sent w /\ console w' = console w
  /\ loading (ui w') = loading (ui w)
  /\ selectedStyle (ui w') = selectedStyle (ui w)
  /\ theme (ui w') = theme (ui w).
Proof.
  unfold handleTranslate_begin.
  destruct (str_falsy (input (ui w)) || str_falsy (selectedStyle (ui w)));
    [intros [= <-]; now cbn|].
  destruct (opt_falsy key); [intros [= <-]; now cbn | discriminate].
Qed.

Lemma begin_awaited (key : option jsstring) (w w' : World) (q : request) :
  handleTranslate_begin key w = Awaiting q w' ->
  input (ui w) <> [] /\ selectedStyle (ui w) <> [] /\ opt_falsy key = false
  /\ q = {| model := lit "gemini-1.5-flash";
            prompt := make_prompt (selectedStyle (ui w)) (input (ui w)) |}
  /\ w' = generateContent q (setOutput [] (setLoading true w)).
Proof.
  unfold handleTranslate_begin.
  destruct (input (ui w)) eqn:Ei; [discriminate|].
  destruct (selectedStyle (ui w)) eqn:Es; [discriminate|].
  cbn [str_falsy orb].
  destruct (opt_falsy key); [discriminate|].
  cbn [setLoading setOutput ui input selectedStyle]. rewrite Ei, Es.
  intros [= <- <-]. repeat split; discriminate.
Qed.

Lemma settle_effects (r : reply) (w : World) :
  sent (handleTranslate_settle r w) = sent w
  /\ (exists l, console (handleTranslate_settle r w) = console w ++ [l])
  /\ selectedStyle (ui (handleTranslate_settle r w)) = selectedStyle (ui w)
  /\ theme (ui (handleTranslate_settle r w)) = theme (ui w).
Proof.
  unfold handleTranslate_settle. destruct r as [text|error].
  - repeat split. now eexists.
  - unfold handle_error.
    repeat match goal with
           | |- context [if ?c then _ else _] => destruct c
           end; (repeat split; now eexists).
Qed.

Lemma page0_inv (key : option jsstring) : page_inv key page0.
Proof.
  unfold page_inv. split; [exact page0_ok|].
  cbn. split; [now left|]. split; [now left|]. split; [constructor|].
  split; [exists []; now split|]. split; [discriminate | reflexivity].
Qed.

Lemma step_inv (key : option jsstring) (p : Page) (e : event) :
  page_inv key p -> page_inv key (step key p e).
Proof.
  intros Hp. pose proof Hp as (Hok & Hst & Hth & Hreq & Hacc & Hout & Hkey).
  split; [now apply step_ok|].
  destruct e as [text|style| | |r]; cbn [step].
  - cbn. auto 10.
  - destruct (existsb (str_eqb style) STYLES) eqn:E; [|apply Hp].
    cbn. split; [right; now apply picked_in_catalog | auto 10].
  - cbn [world waiting toggleTheme setTheme ui sent console theme selectedStyle
           loading output].
    split; [exact Hst|]. split; [|auto 10].
    destruct (str_eqb (theme (ui (world p))) (lit "dark")); auto.
  - destruct (button_disabled (ui (world p))) eqn:Hd; [apply Hp|].
    unfold button_disabled in Hd.
    apply orb_false_elim in Hd. destruct Hd as [Hd Hs].
    apply orb_false_elim in Hd. destruct Hd as [Hl Hi].
    destruct Hok as [Hload Hw].
    assert (Hnone : waiting p = []).
    { destruct (waiting p); [reflexivity|]. rewrite Hl in Hload. discriminate Hload. }
    destruct (handleTranslate_begin key (world p)) as [w'|q w'] eqn:Eb.
    + destruct (begin_returned key (world p) w' Eb) as (E1 & E2 & E3 & E4 & E5).
      cbn [world waiting]. rewrite E1, E2, E3, E4, E5.
      split; [exact Hst|]. split; [exact Hth|]. split; [exact Hreq|].
      split; [exact Hacc|]. split; [|exact Hkey].
      intro H. rewrite Hl in H. discriminate H.
    + destruct (begin_awaited key (world p) w' q Eb) as (Ni & Ns & Nk & Eq & Ew).
      subst w'. cbn [world waiting generateContent setOutput setLoading ui sent
                       console theme selectedStyle loading output].
      split; [exact Hst|]. split; [exact Hth|]. split; [|split; [|split]].
      * apply Forall_app. split; [exact Hreq|]. constructor; [|constructor].
        subst q. split; [reflexivity|].
        exists (selectedStyle (ui (world p))), (input (ui (world p))).
        split; [|split; [exact Ni | reflexivity]].
        destruct Hst as [Hst|Hst]; [contradiction | exact Hst].
      * destruct Hacc as (settled & Hsent & Hcon). rewrite Hnone in *.
        exists settled. rewrite app_nil_r in Hsent. rewrite app_nil_l.
        now rewrite Hsent.
      * reflexivity.
      * intro Hf. rewrite Hf in Nk. discriminate Nk.
  - destruct (waiting p) as [|q rest_waiting] eqn:Ew in |- *.
    { apply Hp. }
    destruct Hok as [_ Hw]. rewrite Ew in Hw. cbn [length] in Hw.
    assert (rest_waiting = []) as ->
        by (destruct rest_waiting; [reflexivity | cbn in Hw; lia]).
    destruct (settle_effects r (world p)) as (E1 & (l & E2) & E3 & E4).
    cbn [world waiting]. rewrite E1, E2, E3, E4.
    split; [exact Hst|]. split; [exact Hth|]. split; [exact Hreq|].
    split; [|split; [|exact Hkey]].
    + destruct Hacc as (settled & Hsent & Hcon). rewrite Ew in Hsent.
      exists (settled ++ [q]). rewrite app_nil_r. split; [exact Hsent|].
      rewrite !length_app. cbn. lia.
    + intro H. discriminate H.
Qed.

Lemma run_events_inv (key : option jsstring) (es : list event) (p : Page) :
  page_inv key p -> page_inv key (run_events key es p).
Proof.
  revert p. induction es as [|e es IH]; intros p Hp; [exact Hp|].
  cbn [run_events fold_left]. apply IH. now apply step_inv.
Qed.

Lemma reachable_inv (key : option jsstring) (es : list event) :
  page_inv key (run_events key es page0).
Proof. apply run_events_inv, page0_inv. Qed.

(** X8. Whatever the user does and however the requests settle, at most
    one request is in flight; the loading flag is up exactly while one is,
    and the translate button is then disabled. *)
Theorem one_request_in_flight (key : option jsstring) (es : list event) :
  let p := run_events key es page0 in
  length (waiting p) <= 1
  /\ (loading (ui (world p)) = true <-> waiting p <> [])
  /\ (waiting p <> [] -> button_disabled (ui (world p)) = true).
Proof.
  intro p. destruct (reachable_inv key es) as ([Hl Hw] & _). fold p in Hl, Hw.
  split; [exact Hw|].
  assert (E : loading (ui (world p)) = true <-> waiting p <> []).
  { rewrite Hl. destruct (waiting p); cbn; split; congruence. }
  split; [exact E|].
  intro H. apply E in H. unfold button_disabled. now rewrite H.
Qed.

Lemma one_request_in_flight_witness :
  let es := [Typed (lit "notes"); Picked (lit "Rap"); Clicked; Clicked;
             Typed (lit "more"); Clicked] in
  length (waiting (run_events (Some (lit "secret")) es page0)) = 1
  /\ button_disabled (ui (world (run_events (Some (lit "secret")) es page0))) = true.
Proof.
  intro es. split; [reflexivity|].
  apply (one_request_in_flight (Some (lit "secret")) es). discriminate.
Defined.

(** X9. Every request that ever goes out asks for the model
    [gemini-1.5-flash] with a prompt built from a style of the catalog and
    a non-empty text. *)
Theorem requests_well_formed (key : option jsstring) (es : list event) (q : request) :
  In q (sent (world (run_events key es page0))) ->
  model q = lit "gemini-1.5-flash"
  /\ exists style text,
       In style STYLES /\ text <> []
       /\ prompt q
          = lit "Rewrite the following meeting notes in " ++ style
              ++ lit " style:" ++ [LF; LF] ++ text.
Proof.
  intro Hq. destruct (reachable_inv key es) as (_ & _ & _ & Hreq & _).
  rewrite Forall_forall in Hreq. exact (Hreq q Hq).
Qed.

Lemma requests_well_formed_witness :
  let q := {| model := lit "gemini-1.5-flash";
              prompt := make_prompt (lit "Rap") (lit "notes") |} in
  In q (sent (world (run_events (Some (lit "secret"))
                       [Typed (lit "notes"); Picked (lit "Klingon");
                        Picked (lit "Rap"); Clicked] page0)))
  /\ exists style text,
       In style STYLES /\ text <> []
       /\ prompt q
          = lit "Rewrite the following meeting notes in " ++ style
              ++ lit " style:" ++ [LF; LF] ++ text.
Proof.
  intro q.
  assert (H : In q (sent (world (run_events (Some (lit "secret"))
                                   [Typed (lit "notes"); Picked (lit "Klingon");
                                    Picked (lit "Rap"); Clicked] page0))))
    by (left; reflexivity).
  split; [exact H|]. exact (proj2 (requests_well_formed _ _ q H)).
Defined.

(** X10. Without a credential nothing is ever sent: when the key is absent
    or empty, no sequence of events makes a request go out. *)
Theorem no_credential_no_request (key : option jsstring) (es : list event) :
  key = None \/ key = Some [] ->
  sent (world (run_events key es page0)) = [].
Proof.
  intro Hk. destruct (reachable_inv key es) as (_ & _ & _ & _ & _ & _ & Hkey).
  apply Hkey. now apply opt_falsy_missing.
Qed.

Lemma no_credential_no_request_witness :
  sent (world (run_events None
                 [Typed (lit "notes"); Picked (lit "Rap"); Clicked; Clicked] page0))
  = [].
Proof.
  apply (no_credential_no_request None). left. reflexivity.
Defined.

(** X11. The requests sent are the requests settled followed by the one in
    flight, if any, and the console holds exactly one line for each request
    settled: calls that end before any request write nothing to it. *)
Theorem requests_accounted (key : option jsstring) (es : list event) :
  let p := run_events key es page0 in
  exists settled,
    sent (world p) = settled ++ waiting p
    /\ length (console (world p)) = length settled.
Proof.
  intro p. destruct (reachable_inv key es) as (_ & _ & _ & _ & Hacc & _).
  exact Hacc.
Qed.

(** X12. While a request is in flight the output card is not rendered: the
    text of the call before is gone and nothing is displayed until the
    request settles. *)
Theorem loading_hides_output (key : option jsstring) (es : list event) :
  let p := run_events key es page0 in
  loading (ui (world p)) = true -> output_card (ui (world p)) = None.
Proof.
  intros p H. destruct (reachable_inv key es) as (_ & _ & _ & _ & _ & Hout & _).
  fold p in Hout. unfold output_card. now rewrite (Hout H).
Qed.

Lemma loading_hides_output_witness :
  let key := Some (lit "secret") in
  let es := [Typed (lit "notes"); Picked (lit "Rap"); Clicked;
             Settled (Resolved (lit "yo")); Clicked; Typed (lit "more")] in
  output_card (ui (world (run_events key (firstn 4 es) page0))) = Some (lit "yo")
  /\ output_card (ui (world (run_events key es page0))) = None.
Proof.
  intros key es. split; [reflexivity|].
  apply (loading_hides_output key es). reflexivity.
Defined.

(** X13. The theme is always [dark] or [light], and toggling it twice
    gives the page back as it was. *)
Theorem theme_toggle_twice (key : option jsstring) (es : list event) :
  let p := run_events key es page0 in
  (theme (ui (world p)) = lit "dark" \/ theme (ui (world p)) = lit "light")
  /\ step key (step key p ThemeToggled) ThemeToggled = p.
Proof.
  intro p. destruct (reachable_inv key es) as (_ & _ & Hth & _). fold p in Hth.
  split; [exact Hth|].
  destruct p as [[[i o st l th] se co] wa]. cbn in Hth |- *.
  unfold toggleTheme, setTheme. cbn.
  destruct Hth as [-> | ->]; reflexivity.
Qed.

(** X14. The radio buttons show the selection: none is checked until a
    style is picked, and from then on exactly one is, that of the selected
    style. *)
Theorem one_radio_checked (key : option jsstring) (es : list event) :
  let p := run_events key es page0 in
  checked_radios (ui (world p))
  = match selectedStyle (ui (world p)) with
    | [] => []
    | _ :: _ => [selectedStyle (ui (world p))]
    end.
Proof.
  intro p. destruct (reachable_inv key es) as (_ & Hst & _). fold p in Hst.
  unfold checked_radios. destruct Hst as [-> | Hin]; [reflexivity|].
  cbn in Hin.
  repeat (destruct Hin as [<- | Hin]; [reflexivity|]). contradiction.
Qed.

(** ** What the two patterns match *)

Lemma close_bold_no_marker (s t r : jsstring) :
  close_bold s = Some (t, r) -> no_marker t.
Proof.
  revert t r. induction s as [|c s IH]; intros t r E; [discriminate|].
  cbn [close_bold] in E.
  destruct (startsWith (c :: s) [star; star]) eqn:Es.
  - injection E as <- <-. reflexivity.
  - destruct (isLineTerminator c); [discriminate|].
    destruct (close_bold s) as [[t' r']|] eqn:E'; [|discriminate].
    injection E as <- <-.
    destruct (close_bold_some s t' r' E') as [-> _].
    unfold no_marker. rewrite <- app_comm_cons. cbn [includes].
    rewrite (IH t' r' eq_refl), orb_false_r.
    rewrite <- Es. destruct t'; reflexivity.
Qed.

(** X15. A match of the bold pattern begins with two stars and ends with
    the nearest two stars after them; the text in between, which the
    [strong] element receives, holds no line terminator, no two stars side
    by side, and does not end with a star. *)
Theorem bold_match_shape (b : option N) (s : jsstring) (m : mstate) :
  exec bold_re b s = Some m ->
  exists t,
    group1 m = Some t
    /\ s = [star; star] ++ t ++ [star; star] ++ rest m
    /\ one_line t
    /\ no_marker t.
Proof.
  rewrite exec_bold_re. unfold bold_match.
  destruct s as [|c1 [|c2 s']]; try discriminate.
  destruct (c1 =? star)%N eqn:E1; [|discriminate].
  destruct (c2 =? star)%N eqn:E2; [|discriminate].
  apply N.eqb_eq in E1, E2. subst c1 c2. cbn [andb].
  destruct (close_bold s') as [[t r]|] eqn:E; [|discriminate].
  intros [= <-]. exists t. cbn [group1 rest].
  destruct (close_bold_some s' t r E) as [-> Hl].
  split; [reflexivity|]. split; [reflexivity|]. split; [exact Hl|].
  exact (close_bold_no_marker _ t r E).
Qed.

Lemma bold_match_shape_witness :
  exists m t,
    exec bold_re None (lit "***a** b**") = Some m
    /\ group1 m = Some t
    /\ t = lit "*a"
    /\ rest m = lit " b**".
Proof.
  eexists. eexists. split; [reflexivity|].
  destruct (bold_match_shape None (lit "***a** b**") _ eq_refl)
    as (t & Hg & _).
  cbn in Hg. injection Hg as <-.
  split; [reflexivity|]. split; reflexivity.
Defined.

Lemma line_span_parts (s : jsstring) :
  one_line (fst (line_span s))
  /\ match snd (line_span s) with
     | [] => True
     | c :: _ => isLineTerminator c = true
     end.
Proof.
  induction s as [|c s IH]; [split; [constructor | exact I]|].
  cbn [line_span]. destruct (isLineTerminator c) eqn:E.
  - split; [constructor | exact E].
  - destruct (line_span s) as [l r]. cbn [fst snd] in *.
    destruct IH as [Hl Hr]. split; [now constructor | exact Hr].
Qed.

(** X16. A match of the bullet pattern is a whole line: it begins at the
    start of the text or just after a line terminator, with a star and a
    space, and takes all that follows up to the end of the line, which is
    at least one character. *)
Theorem bullet_match_shape (b : option N) (s : jsstring) (m : mstate) :
  exec bullet_re b s = Some m ->
  at_line_start b = true
  /\ exists l,
       group1 m = Some l
       /\ l <> []
       /\ one_line l
       /\ s = [star; space] ++ l ++ rest m
       /\ match rest m with
          | [] => True
          | c :: _ => isLineTerminator c = true
          end.
Proof.
  destruct (exec_bullet_re b s) as [b' ->]. unfold bullet_match.
  destruct s as [|c1 [|c2 [|c3 s']]]; try discriminate.
  destruct (at_line_start b); [|discriminate].
  destruct (c1 =? star)%N eqn:E1; [|discriminate].
  destruct (c2 =? space)%N eqn:E2; [|discriminate].
  destruct (isLineTerminator c3) eqn:E3; [discriminate|].
  apply N.eqb_eq in E1, E2. subst c1 c2. cbn [andb negb].
  pose proof (line_span_app s') as Happ.
  pose proof (line_span_parts s') as [Hl Hr].
  destruct (line_span s') as [l r]. cbn [fst snd] in *.
  intros [= <-]. cbn [group1 rest]. split; [reflexivity|].
  exists (c3 :: l). split; [reflexivity|]. split; [discriminate|].
  split; [now constructor|]. split; [|exact Hr].
  cbn. now rewrite Happ.
Qed.

Lemma bullet_match_shape_witness :
  exists m,
    exec bullet_re (Some CR) (lit "* one" ++ [CR; LF] ++ lit "* two") = Some m
    /\ group1 m = Some (lit "one")
    /\ rest m = [CR; LF] ++ lit "* two".
Proof.
  eexists. split; [reflexivity|].
  destruct (bullet_match_shape (Some CR) (lit "* one" ++ [CR; LF] ++ lit "* two")
              _ eq_refl) as (_ & l & Hg & _).
  cbn in Hg |- *. split; reflexivity.
Defined.

(** ** Stars that are not markers *)

Lemma includes_cons_false (c : N) (s needle : jsstring) :
  includes (c :: s) needle = false ->
  startsWith (c :: s) needle = false /\ includes s needle = false.
Proof. cbn [includes]. apply orb_false_elim. Qed.

Lemma bold_match_needs_pair (s : jsstring) :
  startsWith s [star; star] = false -> bold_match s = None.
Proof.
  unfold bold_match. destruct s as [|c1 [|c2 s']]; try reflexivity.
  cbn [startsWith]. rewrite andb_true_r. now intros ->.
Qed.

Lemma bold_loop_no_pair (s : jsstring) :
  includes s [star; star] = false ->
  forall b, replace_loop bold_re bold_tpl 0 b s = s.
Proof.
  induction s as [|c s IH]; intros H b.
  - now apply (replace_loop_end bold_re bold_tpl bold_mf exec_bold_mf).
  - destruct (includes_cons_false c s _ H) as [H1 H2].
    rewrite (replace_loop_miss bold_re bold_tpl bold_mf exec_bold_mf).
    + now rewrite IH.
    + now apply bold_match_needs_pair.
Qed.

(** X17. Single stars are no markers: a text in which no two stars stand
    side by side goes through the bold replacement unchanged, so that only
    the bullet replacement acts on it. *)
Theorem single_stars_kept (s : jsstring) :
  includes s [star; star] = false ->
  bold_pass s = s /\ formatMarkdown s = bullet_pass s.
Proof.
  intro H.
  assert (E : bold_pass s = s) by now apply bold_loop_no_pair.
  split; [exact E|]. unfold formatMarkdown. fold (bold_pass s). now rewrite E.
Qed.

Lemma single_stars_kept_witness :
  formatMarkdown (lit "2 * 3 * 4 = 24") = lit "2 * 3 * 4 = 24".
Proof.
  rewrite (proj2 (single_stars_kept (lit "2 * 3 * 4 = 24") eq_refl)).
  reflexivity.
Defined.

Lemma close_bold_needs_pair (s : jsstring) :
  includes s [star; star] = false -> close_bold s = None.
Proof.
  intro H. destruct (close_bold s) as [[t r]|] eqn:E; [|reflexivity].
  destruct (close_bold_some s t r E) as [-> _].
  assert (T : includes (t ++ [star; star] ++ r) [star; star] = true)
    by (apply includes_iff; now exists t, r).
  congruence.
Qed.

Lemma bold_pass_unclosed (a r : jsstring) :
  no_marker a ->
  includes r [star; star] = false ->
  bold_pass (a ++ [star; star] ++ r) = a ++ [star; star] ++ r.
Proof.
  intros Ha Hr. unfold bold_pass, replace_all.
  generalize (@None N). induction a as [|c a IH]; intro b.
  - rewrite app_nil_l. cbn [List.app].
    rewrite (replace_loop_miss bold_re bold_tpl bold_mf exec_bold_mf).
    + f_equal.
      rewrite (replace_loop_miss bold_re bold_tpl bold_mf exec_bold_mf).
      * f_equal. now apply bold_loop_no_pair.
      * unfold bold_mf, bold_match. destruct r as [|d r']; [reflexivity|].
        destruct (includes_cons_false d r' _ Hr) as [_ Hr'].
        rewrite (close_bold_needs_pair r' Hr').
        now destruct ((star =? star)%N && (d =? star)%N).
    + unfold bold_mf, bold_match.
      change ((star =? star)%N && (star =? star)%N) with true. cbv iota.
      now apply close_bold_needs_pair.
  - destruct (no_marker_cons c a Ha) as [Hc Ha'].
    rewrite <- app_comm_cons.
    rewrite (replace_loop_miss bold_re bold_tpl bold_mf exec_bold_mf).
    + f_equal. now apply IH.
    + apply bold_match_needs_pair. exact (Hc (star :: r)).
Qed.

(** X18. An opening marker is closed on its own line or not at all: when
    no marker begins before a pair of stars and no two stars stand side by
    side after it up to the end of the line, the pair stays in the text as
    it is, whatever the following lines hold. *)
Theorem unclosed_marker_kept (a l : jsstring) :
  no_marker a ->
  includes l [star; star] = false ->
  bold_pass (a ++ [star; star] ++ l) = a ++ [star; star] ++ l
  /\ forall nl r,
       one_line (a ++ l) -> isLineTerminator nl = true ->
       bold_pass (a ++ [star; star] ++ l ++ nl :: r)
       = a ++ [star; star] ++ l ++ nl :: bold_pass r.
Proof.
  intros Ha Hl. pose proof (bold_pass_unclosed a l Ha Hl) as E.
  split; [exact E|]. intros nl r Hline Hnl.
  replace (a ++ [star; star] ++ l ++ nl :: r)
    with ((a ++ [star; star] ++ l) ++ nl :: r)
    by (now rewrite <- !app_assoc).
  rewrite bold_pass_line, E; [now rewrite <- !app_assoc| |exact Hnl].
  apply Forall_app in Hline. destruct Hline as [H1 H2].
  apply Forall_app. split; [exact H1|].
  apply Forall_app. split; [|exact H2]. repeat constructor.
Qed.

Lemma unclosed_marker_kept_witness :
  bold_pass (lit "note: " ++ [star; star] ++ lit "urgent" ++ LF :: lit "done**")
  = lit "note: " ++ [star; star] ++ lit "urgent" ++ LF :: bold_pass (lit "done**").
Proof.
  apply (unclosed_marker_kept (lit "note: ") (lit "urgent"));
    [reflexivity | reflexivity | repeat constructor | reflexivity].
Defined.

(** ** The line structure is kept *)

Section ReplaceLines.
Variable r : regex.
Variable tpl : list piece.
Variable mf : option N -> jsstring -> option (jsstring * jsstring).
Hypothesis exec_mf : forall b s, exists b', exec r b s = as_match b' (mf b s).
Hypothesis mf_one_line :
  forall b s t rst, mf b s = Some (t, rst) ->
    exists m, m <> [] /\ s = m ++ rst /\ one_line m
              /\ one_line (expand tpl (Some t)).

Lemma filter_one_line (l : jsstring) :
  one_line l -> filter isLineTerminator l = [].
Proof.
  induction 1 as [|c l Hc _ IH]; [reflexivity|]. cbn. now rewrite Hc.
Qed.

Lemma replace_loop_terminators (s : jsstring) :
  forall skip b,
    filter isLineTerminator (replace_loop r tpl skip b s)
    = filter isLineTerminator (skipn skip s).
Proof.
  induction s as [|c s IH]; intros skip b.
  - destruct skip; [|reflexivity].
    rewrite (replace_loop_step r tpl mf exec_mf).
    destruct (mf b []) as [[t rst]|] eqn:E; [|reflexivity].
    destruct (mf_one_line _ _ _ _ E) as (m & Hm & Hs & _).
    destruct m; [contradiction | discriminate].
  - destruct skip as [|n]; [|cbn [replace_loop skipn]; apply IH].
    rewrite (replace_loop_step r tpl mf exec_mf). cbn [skipn].
    destruct (mf b (c :: s)) as [[t rst]|] eqn:E.
    + destruct (mf_one_line _ _ _ _ E) as (m & Hm & Hs & Hl & Ht).
      rewrite filter_app, (filter_one_line _ Ht), app_nil_l.
      destruct m as [|c0 m]; [contradiction|].
      rewrite <- app_comm_cons in Hs. injection Hs as <- ->.
      replace (length (c :: m ++ rst) - length rst) with (S (length m))
        by (cbn [length]; rewrite length_app; lia).
      rewrite IH.
      rewrite skipn_app, Nat.sub_diag, skipn_all. cbn [skipn List.app].
      change (c :: m ++ rst) with ((c :: m) ++ rst).
      now rewrite filter_app, (filter_one_line _ Hl).
    + cbn [filter]. now rewrite IH.
Qed.
End ReplaceLines.

Lemma bold_mf_one_line (b : option N) (s t rst : jsstring) :
  bold_mf b s = Some (t, rst) ->
  exists m, m <> [] /\ s = m ++ rst /\ one_line m
            /\ one_line (expand bold_tpl (Some t)).
Proof.
  unfold bold_mf, bold_match. intro E.
  destruct s as [|c1 [|c2 s']]; try discriminate.
  destruct (c1 =? star)%N eqn:E1; [|discriminate].
  destruct (c2 =? star)%N eqn:E2; [|discriminate].
  apply N.eqb_eq in E1, E2. subst c1 c2. cbn [andb] in E.
  destruct (close_bold_some _ _ _ E) as [-> Ht].
  destruct one_line_lit_strong as [H1 H2].
  exists ([star; star] ++ t ++ [star; star]). split; [discriminate|].
  split; [now rewrite <- !app_assoc|]. split.
  - apply Forall_app. split; [repeat constructor|].
    apply Forall_app. split; [exact Ht | repeat constructor].
  - cbn [expand flat_map expand_piece bold_tpl]. rewrite app_nil_r.
    apply Forall_app. split; [exact H1|]. now apply Forall_app.
Qed.

Lemma bullet_match_one_line (b : option N) (s t rst : jsstring) :
  bullet_match b s = Some (t, rst) ->
  exists m, m <> [] /\ s = m ++ rst /\ one_line m
            /\ one_line (expand bullet_tpl (Some t)).
Proof.
  unfold bullet_match. intro E.
  destruct s as [|c1 [|c2 [|c3 s']]]; try discriminate.
  destruct (at_line_start b); [|discriminate].
  destruct (c1 =? star)%N eqn:E1; [|discriminate].
  destruct (c2 =? space)%N eqn:E2; [|discriminate].
  destruct (isLineTerminator c3) eqn:E3; [discriminate|].
  apply N.eqb_eq in E1, E2. subst c1 c2. cbn [andb negb] in E.
  pose proof (line_span_app s') as Happ.
  pose proof (line_span_parts s') as [Hl _].
  destruct (line_span s') as [l r]. cbn [fst snd] in *.
  injection E as <- <-.
  assert (Hc : one_line (c3 :: l)) by now constructor.
  exists (star :: space :: c3 :: l). split; [discriminate|].
  split; [cbn; now rewrite Happ|]. split.
  - constructor; [reflexivity|]. constructor; [reflexivity | exact Hc].
  - cbn [expand flat_map expand_piece bullet_tpl]. rewrite app_nil_r.
    apply Forall_app. split; [repeat constructor | exact Hc].
Qed.

(** X19. The transformation never joins or splits lines: the line
    terminators of the formatted text are those of the text, in the same
    order. *)
Theorem line_terminators_kept (s : jsstring) :
  filter isLineTerminator (formatMarkdown s) = filter isLineTerminator s.
Proof.
  unfold formatMarkdown, replace_all.
  rewrite (replace_loop_terminators bullet_re bullet_tpl bullet_match
             exec_bullet_re bullet_match_one_line).
  cbn [skipn].
  now rewrite (replace_loop_terminators bold_re bold_tpl bold_mf
                 exec_bold_mf bold_mf_one_line).
Qed.

(** ** Class names *)

Lemma lower_ascii_not_upper (c : N) : isUpperAscii (lower_ascii c) = false.
Proof.
  unfold lower_ascii. destruct (isUpperAscii c) eqn:E; [|exact E].
  unfold isUpperAscii in *. apply andb_true_iff in E. destruct E as [E1 E2].
  apply N.leb_le in E1, E2. apply andb_false_iff. right.
  apply N.leb_gt. lia.
Qed.

Lemma lower_ascii_ascii (c : N) : isAscii c = true -> isAscii (lower_ascii c) = true.
Proof.
  unfold lower_ascii. destruct (isUpperAscii c) eqn:E; [|auto].
  intros _. unfold isUpperAscii in E. apply andb_true_iff in E.
  destruct E as [_ E2]. apply N.leb_le in E2.
  unfold isAscii. apply N.ltb_lt. lia.
Qed.

Lemma lower_ascii_fixed (c : N) : isUpperAscii c = false -> lower_ascii c = c.
Proof. unfold lower_ascii. now intros ->. Qed.

(** The characters a class name is made of. *)
Lemma dash_runs_chars (s : jsstring) (in_run : bool) (x : N) :
  In x (dash_runs in_run s) ->
  x = dash \/ (In x s /\ isWhiteSpace x = false).
Proof.
  revert in_run. induction s as [|c s IH]; intros in_run H; [contradiction|].
  cbn [dash_runs] in H. destruct (isWhiteSpace c) eqn:E.
  - destruct in_run.
    + destruct (IH _ H) as [Hx | [Hx Hw]]; [now left | right; split; [now right | exact Hw]].
    + destruct H as [<- | H]; [now left|].
      destruct (IH _ H) as [Hx | [Hx Hw]]; [now left | right; split; [now right | exact Hw]].
  - destruct H as [<- | H]; [right; split; [now left | exact E]|].
    destruct (IH _ H) as [Hx | [Hx Hw]]; [now left | right; split; [now right | exact Hw]].
Qed.

Lemma dash_runs_fixed (s : jsstring) (in_run : bool) :
  (forall x, In x s -> isWhiteSpace x = false) -> dash_runs in_run s = s.
Proof.
  revert in_run. induction s as [|c s IH]; intros in_run H; [reflexivity|].
  cbn [dash_runs]. rewrite (H c (or_introl eq_refl)). f_equal.
  apply IH. intros x Hx. apply H. now right.
Qed.

Lemma getStyleClass_chars (s c : jsstring) :
  getStyleClass s = Some c ->
  forall x, In x c ->
    isAscii x = true /\ isWhiteSpace x = false /\ isUpperAscii x = false.
Proof.
  unfold getStyleClass, toLowerCase.
  destruct (forallb isAscii s) eqn:Ha; [|discriminate].
  intros [= <-] x Hx. rewrite forallb_forall in Ha.
  destruct (dash_runs_chars _ _ _ Hx) as [-> | [Hin Hw]].
  - repeat split; reflexivity.
  - apply in_map_iff in Hin. destruct Hin as (y & <- & Hy).
    split; [apply lower_ascii_ascii, Ha, Hy|].
    split; [exact Hw | apply lower_ascii_not_upper].
Qed.

(** X20. For a style written in ASCII the class name is a single token in
    lower case: it holds no white space of any kind and no capital
    letter. *)
Theorem getStyleClass_token (s : jsstring) :
  forallb isAscii s = true ->
  exists c,
    getStyleClass s = Some c
    /\ forall x, In x c -> isWhiteSpace x = false /\ isUpperAscii x = false.
Proof.
  intro Ha. exists (dash_runs false (map lower_ascii s)).
  assert (E : getStyleClass s = Some (dash_runs false (map lower_ascii s)))
    by (unfold getStyleClass, toLowerCase; now rewrite Ha).
  split; [exact E|]. intros x Hx.
  destruct (getStyleClass_chars s _ E x Hx) as (_ & H1 & H2). now split.
Qed.

Lemma getStyleClass_token_witness :
  exists c,
    getStyleClass (lit " Old  English" ++ [9; 10]%N ++ lit "Style") = Some c
    /\ c = lit "-old-english-style"
    /\ forall x, In x c -> isWhiteSpace x = false /\ isUpperAscii x = false.
Proof.
  destruct (getStyleClass_token (lit " Old  English" ++ [9; 10]%N ++ lit "Style")
              eq_refl) as (c & Hc & Hx).
  exists c. split; [exact Hc|]. split; [|exact Hx].
  vm_compute in Hc. now injection Hc as <-.
Defined.

(** X21. Taking the class name of a class name changes nothing. *)
Theorem getStyleClass_idempotent (s c : jsstring) :
  getStyleClass s = Some c -> getStyleClass c = Some c.
Proof.
  intro E. pose proof (getStyleClass_chars s c E) as H.
  unfold getStyleClass, toLowerCase.
  assert (Ha : forallb isAscii c = true).
  { apply forallb_forall. intros x Hx. now apply H. }
  rewrite Ha. f_equal.
  assert (El : map lower_ascii c = c).
  { rewrite <- (map_id c) at 2. apply map_ext_in. intros x Hx.
    apply lower_ascii_fixed. now apply H. }
  rewrite El. apply dash_runs_fixed. intros x Hx. now apply H.
Qed.

Lemma getStyleClass_idempotent_witness :
  getStyleClass (lit "victorian-era") = Some (lit "victorian-era").
Proof.
  apply (getStyleClass_idempotent (lit "Victorian Era") (lit "victorian-era")).
  reflexivity.
Defined.

(** X22. Every style of the catalog has a class name, and the seven class
    names are all different, so that no two styles share their styling. *)
Theorem catalog_classes_distinct :
  (forall style, In style STYLES -> getStyleClass style <> None)
  /\ NoDup (map getStyleClass STYLES).
Proof.
  split.
  - intros style H. cbn in H.
    repeat (destruct H as [<- | H]; [discriminate|]). contradiction.
  - vm_compute. repeat constructor; cbn; intuition discriminate.
Qed.

Lemma catalog_classes_distinct_witness :
  getStyleClass (lit "Gen Z") <> None.
Proof.
  apply (proj1 catalog_classes_distinct). left. reflexivity.
Defined.

(** ** Formatting a formatted text *)

Lemma settled_fixed (x : jsstring) :
  settled x -> forall b, replace_loop bold_re bold_tpl 0 b x = x.
Proof.
  induction x as [|c x IH]; intros [H Hx] b.
  - now apply (replace_loop_end bold_re bold_tpl bold_mf exec_bold_mf).
  - rewrite (replace_loop_miss bold_re bold_tpl bold_mf exec_bold_mf) by exact H.
    now rewrite IH.
Qed.

Lemma settled_no_pair (x : jsstring) :
  includes x [star; star] = false -> settled x.
Proof.
  induction x as [|c x IH]; intro H; [now split|].
  destruct (includes_cons_false c x _ H) as [H1 H2].
  split; [now apply bold_match_needs_pair | now apply IH].
Qed.

Lemma settled_after_text (t u : jsstring) :
  no_marker t -> settled u -> settled (t ++ u).
Proof.
  intros Ht Hs. induction t as [|c t IH]; [exact Hs|].
  destruct (no_marker_cons c t Ht) as [Hc Ht'].
  rewrite <- app_comm_cons. split; [|now apply IH].
  apply bold_match_needs_pair.
  destruct t as [|d t'].
  - specialize (Hc []). cbn in Hc. cbn [List.app startsWith].
    destruct (c =? star)%N; [discriminate Hc | reflexivity].
  - exact (Hc []).
Qed.

Lemma close_bold_none_one_line (s : jsstring) :
  one_line s -> close_bold s = None -> includes s [star; star] = false.
Proof.
  induction s as [|c s IH]; intros Hl E; [reflexivity|].
  cbn [close_bold] in E. cbn [includes].
  destruct (startsWith (c :: s) [star; star]); [discriminate|].
  rewrite (Forall_inv Hl) in E.
  cbn [orb]. apply IH; [exact (Forall_inv_tail Hl)|].
  now destruct (close_bold s) as [[t r]|].
Qed.

Lemma bold_pass_miss (c : N) (x : jsstring) :
  bold_match (c :: x) = None -> bold_pass (c :: x) = c :: bold_pass x.
Proof.
  intro E. unfold bold_pass, replace_all.
  rewrite (replace_loop_miss bold_re bold_tpl bold_mf exec_bold_mf) by exact E.
  f_equal. apply bold_loop_before.
Qed.

Lemma bold_pass_hit (x t rst : jsstring) :
  bold_match x = Some (t, rst) ->
  x = [star; star] ++ t ++ [star; star] ++ rst
  /\ bold_pass x = lit "<strong>" ++ t ++ lit "</strong>" ++ bold_pass rst.
Proof.
  intro E.
  assert (Hx : x = [star; star] ++ t ++ [star; star] ++ rst).
  { unfold bold_match in E. destruct x as [|c1 [|c2 x']]; try discriminate.
    destruct (c1 =? star)%N eqn:E1; [|discriminate].
    destruct (c2 =? star)%N eqn:E2; [|discriminate].
    apply N.eqb_eq in E1, E2. subst c1 c2. cbn [andb] in E.
    now destruct (close_bold_some _ _ _ E) as [-> _]. }
  split; [exact Hx|]. unfold bold_pass, replace_all.
  replace x with (([star; star] ++ t ++ [star; star]) ++ rst) in E |- *
    by (now rewrite Hx, <- !app_assoc).
  rewrite (replace_loop_match bold_re bold_tpl bold_mf exec_bold_mf)
    with (t := t); [|discriminate | exact E].
  cbn [expand flat_map expand_piece bold_tpl]. rewrite <- !app_assoc.
  rewrite !app_nil_l. do 3 f_equal. apply bold_loop_before.
Qed.

(** After the bold replacement no match of the bold pattern is left on a
    line. *)
Lemma bold_pass_settled (n : nat) :
  forall x, length x <= n -> one_line x -> settled (bold_pass x).
Proof.
  induction n as [|n IH]; intros x Hn Hl.
  { destruct x; [|cbn in Hn; lia]. now split. }
  destruct x as [|c x]; [now split|].
  cbn [length] in Hn. pose proof (Forall_inv_tail Hl) as Hl'.
  destruct (bold_match (c :: x)) as [[t rst]|] eqn:E.
  - destruct (bold_pass_hit _ t rst E) as [Hx ->].
    assert (Ht : no_marker t /\ one_line rst /\ length rst <= n).
    { rewrite Hx in Hl. cbn [List.app] in Hl.
      pose proof (Forall_inv_tail (Forall_inv_tail Hl)) as H.
      apply Forall_app in H. destruct H as [H1 H2].
      pose proof (Forall_inv_tail (Forall_inv_tail H2)) as H3.
      assert (Hlen : length (c :: x) = 4 + length t + length rst).
      { rewrite Hx. cbn [List.app length]. rewrite !length_app. cbn [length]. lia. }
      cbn [length] in Hlen.
      split; [|split; [exact H3 | lia]].
      unfold bold_match in E. destruct x as [|c2 x']; [discriminate|].
      destruct ((c =? star)%N && (c2 =? star)%N); [|discriminate].
      exact (close_bold_no_marker _ _ _ E). }
    destruct Ht as (Hm & Hlr & Hlen).
    apply (settled_after_text (lit "<strong>")); [reflexivity|].
    apply (settled_after_text t); [exact Hm|].
    apply (settled_after_text (lit "</strong>")); [reflexivity|].
    now apply IH.
  - rewrite (bold_pass_miss c x E).
    assert (Hrest : settled (bold_pass x)) by (apply IH; [lia | exact Hl']).
    split; [|exact Hrest].
    destruct (c =? star)%N eqn:Ec;
      [|apply bold_match_needs_pair; cbn [startsWith]; now rewrite Ec].
    destruct x as [|d x']; [reflexivity|].
    destruct (d =? star)%N eqn:Ed.
    + (* two stars that nothing closes: the rest of the line is kept *)
      unfold bold_match in E. rewrite Ec, Ed in E. cbn [andb] in E.
      pose proof (close_bold_none_one_line x' (Forall_inv_tail Hl') E) as Hno.
      apply N.eqb_eq in Ed. subst d.
      assert (Ex : bold_pass (star :: x') = star :: x').
      { rewrite bold_pass_miss; [f_equal; now apply bold_loop_no_pair|].
        unfold bold_match. destruct x' as [|e x'']; [reflexivity|].
        destruct (includes_cons_false e x'' _ Hno) as [_ Hno'].
        rewrite (close_bold_needs_pair x'' Hno').
        now destruct ((star =? star)%N && (e =? star)%N). }
      rewrite Ex. unfold bold_match. rewrite Ec. cbn [andb].
      change ((star =? star)%N) with true. cbv iota. exact E.
    + assert (Ex : bold_pass (d :: x') = d :: bold_pass x').
      { apply bold_pass_miss, bold_match_needs_pair. cbn [startsWith].
        now rewrite Ed. }
      rewrite Ex. apply bold_match_needs_pair. cbn [startsWith].
      now rewrite Ed, andb_false_r.
Qed.

Lemma bullet_line_settled (x : jsstring) : settled x -> settled (bullet_line x).
Proof.
  intro H. unfold bullet_line.
  destruct x as [|c1 [|c2 [|c3 l]]]; try exact H.
  destruct ((c1 =? star)%N && (c2 =? space)%N); [|exact H].
  destruct H as (_ & _ & H). split; [reflexivity|]. split; [|exact H].
  now destruct l.
Qed.

Lemma bullet_line_one_line (x : jsstring) : one_line x -> one_line (bullet_line x).
Proof.
  intro H. unfold bullet_line.
  destruct x as [|c1 [|c2 [|c3 l]]]; try exact H.
  destruct ((c1 =? star)%N && (c2 =? space)%N); [|exact H].
  constructor; [reflexivity|]. constructor; [reflexivity|].
  exact (Forall_inv_tail (Forall_inv_tail H)).
Qed.

Lemma bullet_line_twice (x : jsstring) : bullet_line (bullet_line x) = bullet_line x.
Proof.
  unfold bullet_line.
  destruct x as [|c1 [|c2 [|c3 l]]]; try reflexivity.
  destruct ((c1 =? star)%N && (c2 =? space)%N) eqn:E; [reflexivity|].
  now rewrite E.
Qed.

Lemma formatMarkdown_one_line (x : jsstring) :
  one_line x ->
  formatMarkdown x = bullet_line (bold_pass x)
  /\ one_line (formatMarkdown x)
  /\ formatMarkdown (formatMarkdown x) = formatMarkdown x.
Proof.
  intro Hl.
  pose proof (bold_pass_one_line x Hl) as Hb.
  assert (E : formatMarkdown x = bullet_line (bold_pass x)).
  { rewrite formatMarkdown_passes. now apply bullet_pass_one_line. }
  pose proof (bullet_line_one_line _ Hb) as Hy.
  assert (Hs : settled (bullet_line (bold_pass x))).
  { apply bullet_line_settled. now apply (bold_pass_settled (length x)). }
  rewrite E. split; [reflexivity|]. split; [exact Hy|].
  rewrite formatMarkdown_passes. unfold bold_pass at 1, replace_all.
  rewrite (settled_fixed _ Hs None).
  rewrite (bullet_pass_one_line _ Hy). apply bullet_line_twice.
Qed.

Lemma first_line (s : jsstring) :
  one_line s
  \/ exists l nl r,
       s = l ++ nl :: r /\ one_line l /\ isLineTerminator nl = true.
Proof.
  pose proof (line_span_app s) as Happ.
  pose proof (line_span_parts s) as [Hl Hr].
  destruct (line_span s) as [l r]. cbn [fst snd] in *.
  destruct r as [|nl r].
  - left. rewrite app_nil_r in Happ. now subst l.
  - right. now exists l, nl, r.
Qed.

Lemma formatMarkdown_twice_bounded (n : nat) :
  forall s, length s <= n ->
    formatMarkdown (formatMarkdown s) = formatMarkdown s.
Proof.
  induction n as [|n IH]; intros s Hn.
  { destruct s; [reflexivity | cbn in Hn; lia]. }
  destruct (first_line s) as [Hl | (l & nl & r & -> & Hl & Hnl)].
  - now apply formatMarkdown_one_line.
  - destruct (formatMarkdown_one_line l Hl) as (_ & Hone & Hll).
    rewrite (formatMarkdown_line l nl r Hl Hnl).
    rewrite (formatMarkdown_line _ nl _ Hone Hnl), Hll.
    do 2 f_equal. apply IH.
    rewrite length_app in Hn. cbn [length] in Hn. lia.
Qed.

(** X23. Formatting a text that has been formatted changes nothing. *)
Theorem formatMarkdown_twice (s : jsstring) :
  formatMarkdown (formatMarkdown s) = formatMarkdown s.
Proof. exact (formatMarkdown_twice_bounded (length s) s (Nat.le_refl _)). Qed.

(** ** Editing while a request is in flight *)

Lemma settle_after_edit (r : reply) (w : World) :
  (forall v, handleTranslate_settle r (setInput v w)
             = setInput v (handleTranslate_settle r w))
  /\ (forall v, handleTranslate_settle r (setSelectedStyle v w)
                = setSelectedStyle v (handleTranslate_settle r w))
  /\ (forall v, handleTranslate_settle r (setTheme v w)
                = setTheme v (handleTranslate_settle r w)).
Proof.
  unfold handleTranslate_settle. destruct r as [text|error].
  - repeat split.
  - unfold handle_error.
    repeat match goal with
           | |- context [if ?c then _ else _] => destruct c
           end; repeat split.
Qed.

(** X24. What the user does while a request is in flight is kept when the
    request settles: typing, picking a style or toggling the theme before
    the answer arrives leads to the same page as doing it after. *)
Theorem edits_commute_with_settling (key : option jsstring) (p : Page) (r : reply) :
  (forall text,
      step key (step key p (Typed text)) (Settled r)
      = step key (step key p (Settled r)) (Typed text))
  /\ (forall style,
         step key (step key p (Picked style)) (Settled r)
         = step key (step key p (Settled r)) (Picked style))
  /\ step key (step key p ThemeToggled) (Settled r)
     = step key (step key p (Settled r)) ThemeToggled.
Proof.
  destruct (settle_after_edit r (world p)) as (Hi & Hs & Ht).
  destruct p as [w wa]. cbn [world] in *.
  split; [|split].
  - intro text. cbn [step world waiting].
    destruct wa; [reflexivity|]. now rewrite Hi.
  - intro style. cbn [step world waiting].
    destruct (existsb (str_eqb style) STYLES) eqn:E; destruct wa;
      cbn [step world waiting]; rewrite ?E; try reflexivity.
    now rewrite Hs.
  - cbn [step world waiting].
    destruct wa; [reflexivity|]. cbn [world waiting].
    unfold toggleTheme. rewrite Ht. do 2 f_equal.
    destruct (settle_effects r w) as (_ & _ & _ & E). now rewrite E.
Qed.
